(** * ZigBot content moderation: the [Censorship] cog

    A shallow embedding of [bot/cogs/censorship.py]: the Soundex
    indexer, the lexicon loader, the naive-Bayes scorer, the
    classification pipeline [check_message], the per-message handler
    [on_message] and the periodic sweep [delete_expired_messages];
    then the commands that edit the lexicon files and, from [bot/utils],
    the rate limiter and the circuit breaker.

    Conventions.
    - Python [str] is [string]; case mapping and whitespace are ASCII.
      On text with other code points Python maps case by the Unicode
      tables, which are not modelled: a property that depends on the
      case mapping of such text is stated for [isascii] text.
    - Python [int] is [Z]. The divisions of the classifier go through
      binary64 and are Python's for operands of at most [2^53] in
      absolute value ([occurrence_counts], [exact_counts]); beyond that
      Python rounds the exact quotient or raises OverflowError, and a
      property that depends on it carries the range as a hypothesis.
    - Python [float] is the primitive binary64 type [float]; [0.9] denotes
      the nearest binary64 value, as it does in Python.
    - Python exceptions that the modelled code can raise are a value of
      [exn] carried by [result].
    - [set] is [gset string], [dict] is [gmap].
    - The NLTK tokenizer and the Porter stemmer are library code: they are
      parameters of the pipeline.
    - The SQLite table is a list of rows with the AUTOINCREMENT counter;
      statements on it succeed. Message and channel ids, kept as TEXT in
      the table and read back with [int], are integers throughout.
    - Clock readings ([time.time()]) are integers; only their order is
      used.
    - Handlers run one after the other: a run is a sequence of message
      arrivals and sweeps. *)

From Stdlib Require Import ZArith String Ascii List Bool Lia.
From Stdlib Require Import Uint63 Floats.
From stdpp Require Import base gmap strings list.

Set Warnings "-inexact-float,-clear-no-such-hyp".
Open Scope string_scope.
Open Scope list_scope.

(** ** Exceptions *)

Inductive exn : Type :=
| IndexError
| ZeroDivisionError.

Inductive result (A : Type) : Type :=
| Ok (a : A)
| Raise (e : exn).
Arguments Ok {A} a.
Arguments Raise {A} e.

Definition rbind {A B : Type} (r : result A) (k : A → result B) : result B :=
  match r with
  | Ok a => k a
  | Raise e => Raise e
  end.

Notation "x ←r e1 ;; e2" := (rbind e1 (fun x => e2))
  (at level 100, e1 at next level, e2 at level 200, right associativity).

(** ** ASCII string helpers: [str.upper], [str.lower], [str.strip] *)

Definition chars (s : string) : list ascii := list_ascii_of_string s.
Definition str (l : list ascii) : string := string_of_list_ascii l.

Definition upper_char (c : ascii) : ascii :=
  let n := nat_of_ascii c in
  if (97 <=? n)%nat && (n <=? 122)%nat then ascii_of_nat (n - 32) else c.

Definition lower_char (c : ascii) : ascii :=
  let n := nat_of_ascii c in
  if (65 <=? n)%nat && (n <=? 90)%nat then ascii_of_nat (n + 32) else c.

Definition is_space (c : ascii) : bool :=
  let n := nat_of_ascii c in
  (n =? 32)%nat || ((9 <=? n)%nat && (n <=? 13)%nat)
  || ((28 <=? n)%nat && (n <=? 31)%nat).

Definition upper (s : string) : string := str (map upper_char (chars s)).
Definition lower (s : string) : string := str (map lower_char (chars s)).

(** [str.isascii]: every character is below 128. On such text the three
    helpers above are Python's; on other text Python maps whole code
    points by the Unicode tables, which are not modelled. *)
Definition isascii (s : string) : bool :=
  forallb (fun c => (nat_of_ascii c <? 128)%nat) (chars s).

Fixpoint lstrip (l : list ascii) : list ascii :=
  match l with
  | c :: l' => if is_space c then lstrip l' else l
  | [] => []
  end.

Definition strip (s : string) : string :=
  str (rev (lstrip (rev (lstrip (chars s))))).

Definition startswith_hash (s : string) : bool :=
  match s with
  | String c _ => bool_decide (c = "#"%char)
  | EmptyString => false
  end.

(** ** Phonetic indexer: [soundex] *)

(** [codes = ("BFPV", "CGJKQSXZ", "DT", "L", "MN", "R")] *)
Definition codes : list string :=
  ["BFPV"; "CGJKQSXZ"; "DT"; "L"; "MN"; "R"].

(** [str(code)] for the one-digit group numbers. *)
Definition digit_of (code : nat) : ascii := ascii_of_nat (48 + code).

(** [for code, letters in enumerate(codes, 1): for letter in letters:
       soundex_dict[letter] = str(code)] *)
Definition soundex_dict : gmap ascii ascii :=
  foldl (fun d '(code, letters) =>
           foldl (fun d letter => <[letter := digit_of code]> d) d (chars letters))
        ∅ (zip (seq 1 (length codes)) codes).

(** [soundex_dict.get(char, '0')] *)
Definition soundex_digit (char : ascii) : ascii :=
  default "0"%char (soundex_dict !! char).

(** One iteration of [for char in word[1:]]: the digit of [char]
    (['0'] when unmapped) is appended unless it equals [soundex_code[-1]]. *)
Definition soundex_step (soundex_code : list ascii) (char : ascii) : list ascii :=
  let digit := soundex_digit char in
  if bool_decide (last soundex_code = Some digit)
  then soundex_code
  else soundex_code ++ [digit].

(** The list [soundex_code] after the loop, before joining. *)
Definition soundex_list (first : ascii) (rest : list ascii) : list ascii :=
  foldl soundex_step [first] rest.

(** [.replace('0', '')] *)
Definition strip_zeros (l : list ascii) : list ascii :=
  filter (fun c => c ≠ "0"%char) l.

(** [(s + '0000')[:4]] *)
Definition pad4 (l : list ascii) : list ascii :=
  take 4 (l ++ chars "0000").

(** The body of [soundex] on the characters of [word.upper()]. *)
Definition soundex_chars (word : list ascii) : result string :=
  match word with
  | [] => Raise IndexError                      (* word[0] *)
  | first :: rest => Ok (str (pad4 (strip_zeros (soundex_list first rest))))
  end.

(** [soundex]: the word is upper-cased first. On ASCII words this is the
    code's result; a word with other code points is upper-cased by
    Python as Unicode text. *)
Definition soundex (word : string) : result string :=
  soundex_chars (chars (upper word)).

(** ** Lexicon store *)

Record lexicon : Type := Lexicon {
  banned_words : gset string;
  exceptions : gset string;
  soundex_codes : gmap string string   (* word -> Soundex code *)
}.

(** [load_words_from_file]: [None] is a path that does not exist (a
    warning and the empty set); otherwise every line is stripped, empty
    and [#]-prefixed lines are skipped and the word is lower-cased. *)
Definition load_words_from_file (file : option (list string)) : gset string :=
  match file with
  | None => ∅
  | Some lines =>
      foldl (fun words line =>
               let word := strip line in
               if negb (bool_decide (word = "")) && negb (startswith_hash word)
               then words ∪ {[ lower word ]}
               else words)
            ∅ lines
  end.

(** [create_soundex_codes]: [soundex_mapping[word] = self.soundex(word)]
    for every word of the set. *)
Definition create_soundex_codes (words : gset string) : result (gmap string string) :=
  foldl (fun acc word =>
           soundex_mapping ←r acc;;
           code ←r soundex word;;
           Ok (<[word := code]> soundex_mapping))
        (Ok ∅) (elements words).

(** [load_banned_words]: both files are read, the exceptions are
    subtracted, then the Soundex mapping is rebuilt. An exception raised
    on the way is logged by the enclosing [try]; the assignments already
    made stay. *)
Definition load_banned_words (banned_file exceptions_file : option (list string))
    (old : lexicon) : lexicon :=
  let banned := load_words_from_file banned_file in
  let exc := load_words_from_file exceptions_file in
  let banned := banned ∖ exc in
  match create_soundex_codes banned with
  | Ok mapping => Lexicon banned exc mapping
  | Raise _ => Lexicon banned exc (soundex_codes old)
  end.

(** ** Bayesian classifier *)

Record classifier : Type := Classifier {
  ham_counts : gmap string Z;
  spam_counts : gmap string Z;
  total_ham : Z;
  total_spam : Z
}.

(** Conversion of a Python integer to binary64; exact for [|z| <= 2^53]. *)
Definition Z2f (z : Z) : float :=
  if (z <? 0)%Z then (- of_uint63 (Uint63.of_Z (- z)))%float
  else of_uint63 (Uint63.of_Z z).

(** [a / b] on integers: true division, [ZeroDivisionError] when [b] is 0.
    For operands up to [2^53] in absolute value the quotient is the
    binary64 division of the converted operands. Larger operands are
    outside the model: Python rounds their exact quotient or raises
    OverflowError. *)
Definition true_div (a b : Z) : result float :=
  if (b =? 0)%Z then Raise ZeroDivisionError else Ok (Z2f a / Z2f b)%float.

(** The [for token in tokens] loop of [calculate_spam_probability]. *)
Fixpoint likelihoods (m : classifier) (tokens : list string)
    (spam_likelihood ham_likelihood : float) : result (float * float) :=
  match tokens with
  | [] => Ok (spam_likelihood, ham_likelihood)
  | token :: rest =>
      let spam_count := default 0%Z (spam_counts m !! token) in
      let ham_count := default 0%Z (ham_counts m !! token) in
      p_token_spam ←r true_div (spam_count + 1) (total_spam m + 2);;
      p_token_ham ←r true_div (ham_count + 1) (total_ham m + 2);;
      likelihoods m rest (spam_likelihood * p_token_spam)%float
                         (ham_likelihood * p_token_ham)%float
  end.

Definition calculate_spam_probability (m : classifier) (tokens : list string)
    : result float :=
  lh ←r likelihoods m tokens 1%float 1%float;;
  let '(spam_likelihood, ham_likelihood) := lh in
  if (spam_likelihood + ham_likelihood =? 0)%float then Ok 0%float
  else Ok (spam_likelihood / (spam_likelihood + ham_likelihood))%float.

(** The flagging threshold of [check_message]. *)
Definition threshold : float := 0.9%float.

(** ** Infraction store *)

Record message : Type := Message {
  msg_id : Z;
  msg_channel : Z;
  msg_author : Z;
  author_bot : bool;
  created_at : Z;
  msg_content : string;
  msg_guild : option string      (* message.guild.name; None in a direct message *)
}.

Record row : Type := Row {
  infraction_id : Z;
  message_id : Z;
  channel_id : Z;
  user_id : Z;
  timestamp : Z;
  deletion_time : Z;
  content : string
}.

(** The [infractions] table and its AUTOINCREMENT counter. *)
Record db : Type := Db {
  rows : list row;
  next_id : Z
}.

(** [store_infraction]: [INSERT INTO infractions ...] and commit. *)
Definition store_infraction (d : db) (msg : message) (deletion : Z) : db :=
  Db (rows d ++ [Row (next_id d) (msg_id msg) (msg_channel msg) (msg_author msg)
                     (created_at msg) deletion (msg_content msg)])
     (next_id d + 1).

(** [DELETE FROM infractions WHERE id = ?] *)
Definition delete_row (i : Z) (d : db) : db :=
  Db (filter (fun r => infraction_id r ≠ i) (rows d)) (next_id d).

(** [SELECT ... WHERE deletion_time <= ?] *)
Definition select_due (current_time : Z) (d : db) : list row :=
  filter (fun r => (deletion_time r ≤ current_time)%Z) (rows d).

(** What the body of the sweep's loop observes for one row:
    [get_channel] returned nothing, the fetch and delete went through,
    or one of the three [except] clauses was taken. *)
Inductive attempt : Type :=
| ChannelMissing
| Deleted
| NotFound
| Forbidden
| OtherError.

(** The loop of [delete_expired_messages] over the selected rows; [env]
    is the platform's answer for each row. The row is removed after the
    [if channel ... else ...] statement on every path. *)
Fixpoint sweep_rows (env : row → attempt) (selected : list row) (d : db)
    (log : list (Z * attempt)) : db * list (Z * attempt) :=
  match selected with
  | [] => (d, log)
  | r :: rest =>
      sweep_rows env rest (delete_row (infraction_id r) d)
                 (log ++ [(infraction_id r, env r)])
  end.

Definition delete_expired_messages (current_time : Z) (env : row → attempt)
    (d : db) : db * list (Z * attempt) :=
  sweep_rows env (select_due current_time d) d [].

(** ** Classification pipeline and message handler *)

Record cog : Type := Cog {
  lex : lexicon;
  model : classifier;
  delay : Z;                     (* deletion_delay * 3600 *)
  admin_channel : option Z;      (* the admin channel, when set and found *)
  store : db
}.

(** What a handler asks of the outside world, in order. *)
Inductive effect : Type :=
| Insert (r : row)                       (* INSERT + commit *)
| Announce (admin : Z) (m : message)     (* admin_channel.send(embed) *)
| Sleep (seconds : Z)                    (* asyncio.sleep *)
| DeleteRequest (channel msg : Z).       (* message.delete() *)

Section Pipeline.
(** [nltk.word_tokenize] and [PorterStemmer().stem]. *)
Variable tokenize : string → list string.
Variable stem : string → string.

(** First loop of [check_message]. *)
Definition lexicon_match (l : lexicon) (tokens : list string) : bool :=
  existsb (fun token => bool_decide (token ∈ banned_words l)) (map stem tokens).

(** [soundex_code in self.soundex_codes.values()] *)
Definition code_known (l : lexicon) (soundex_code : string) : bool :=
  bool_decide (soundex_code ∈ (map_to_list (soundex_codes l)).*2).

(** Second loop of [check_message]. *)
Fixpoint phonetic_match (l : lexicon) (tokens : list string) : result bool :=
  match tokens with
  | [] => Ok false
  | token :: rest =>
      soundex_code ←r soundex token;;
      if code_known l soundex_code then Ok true else phonetic_match l rest
  end.

Definition check_tokens (l : lexicon) (m : classifier) (tokens : list string)
    : result bool :=
  if lexicon_match l tokens then Ok true
  else
    hit ←r phonetic_match l tokens;;
    if hit then Ok true
    else
      spam_probability ←r calculate_spam_probability m tokens;;
      if (threshold <? spam_probability)%float then Ok true else Ok false.

Definition check_message (l : lexicon) (m : classifier) (text : string)
    : result bool :=
  check_tokens l m (tokenize text).

(** [announce_infraction]: nothing is sent without an admin channel.
    With one, the embed is built first; its "Server" field reads
    [message.guild.name], which raises for a direct message, where
    [message.guild] is [None]: the exception is logged and nothing is
    sent. *)
Definition announce_infraction (c : cog) (msg : message) : list effect :=
  match admin_channel c with
  | Some ch =>
      match msg_guild msg with
      | Some _ => [Announce ch msg]
      | None => []                 (* except Exception: logged *)
      end
  | None => []
  end.

(** [on_message] at clock reading [now]. *)
Definition on_message (now : Z) (msg : message) (c : cog) : cog * list effect :=
  if author_bot msg then (c, [])
  else
    match check_message (lex c) (model c) (lower (msg_content msg)) with
    | Ok true =>
        let deletion := (now + delay c)%Z in
        let d := store_infraction (store c) msg deletion in
        (Cog (lex c) (model c) (delay c) (admin_channel c) d,
         Insert (Row (next_id (store c)) (msg_id msg) (msg_channel msg)
                     (msg_author msg) (created_at msg) deletion (msg_content msg))
           :: announce_infraction c msg
           ++ [Sleep (delay c); DeleteRequest (msg_channel msg) (msg_id msg)])
    | Ok false => (c, [])
    | Raise _ => (c, [])      (* except Exception: logged *)
    end.

(** A run of the cog: messages arrive and sweeps fire. *)
Inductive event : Type :=
| Arrives (now : Z) (msg : message)
| Sweep (now : Z) (env : row → attempt).

Definition step (c : cog) (e : event) : cog * list effect * list (Z * attempt) :=
  match e with
  | Arrives now msg =>
      let '(c', fx) := on_message now msg c in (c', fx, [])
  | Sweep now env =>
      let '(d, log) := delete_expired_messages now env (store c) in
      (Cog (lex c) (model c) (delay c) (admin_channel c) d, [], log)
  end.

Fixpoint run (c : cog) (es : list event) : cog * list effect * list (Z * attempt) :=
  match es with
  | [] => (c, [], [])
  | e :: es' =>
      let '(c1, fx1, log1) := step c e in
      let '(c2, fx2, log2) := run c1 es' in
      (c2, fx1 ++ fx2, log1 ++ log2)
  end.
End Pipeline.

(** ** Concrete stand-ins for the two library functions

    Used to run the pipeline on sample messages. [words] splits on
    whitespace, which is what the NLTK tokenizer does on text made of
    lower-case words separated by blanks. [plural_stem] is step 1a of the
    Porter algorithm (SSES -> SS, IES -> I, SS -> SS, S -> nothing; words
    of at most two letters are left alone); on the sample words used below
    the later steps of the algorithm change nothing. *)

Fixpoint split_ws (cur : list ascii) (l : list ascii) : list string :=
  match l with
  | [] => match cur with [] => [] | _ => [str (rev cur)] end
  | c :: l' =>
      if is_space c
      then match cur with
           | [] => split_ws [] l'
           | _ => str (rev cur) :: split_ws [] l'
           end
      else split_ws (c :: cur) l'
  end.

Definition words (text : string) : list string := split_ws [] (chars text).

Definition plural_stem (w : string) : string :=
  if (length (chars w) <=? 2)%nat then w
  else
    match rev (chars w) with
    | "s" :: "e" :: "s" :: "s" :: r => str (rev ("s" :: "s" :: r))
    | "s" :: "e" :: "i" :: r => str (rev ("i" :: r))
    | "s" :: "s" :: _ => w
    | "s" :: r => str (rev r)
    | _ => w
    end%char.

(** ** The specification's wording of the score (section 4.3)

    Two running products, each seeded with 1.0 and multiplied by the
    Laplace-smoothed likelihood of every token in order; the score is
    [spamProduct / (spamProduct + hamProduct)], and 0.0 when both
    products are exactly 0. *)

Definition p_token_spam (m : classifier) (token : string) : result float :=
  true_div (default 0%Z (spam_counts m !! token) + 1) (total_spam m + 2).

Definition p_token_ham (m : classifier) (token : string) : result float :=
  true_div (default 0%Z (ham_counts m !! token) + 1) (total_ham m + 2).

Fixpoint running_product (p : string → result float) (tokens : list string)
    (acc : float) : result float :=
  match tokens with
  | [] => Ok acc
  | token :: rest => f ←r p token;; running_product p rest (acc * f)%float
  end.

Definition posterior (m : classifier) (tokens : list string) : result float :=
  spamProduct ←r running_product (p_token_spam m) tokens 1%float;;
  hamProduct ←r running_product (p_token_ham m) tokens 1%float;;
  if (spamProduct =? 0)%float && (hamProduct =? 0)%float then Ok 0%float
  else Ok (spamProduct / (spamProduct + hamProduct))%float.

(** A classifier model as section 3 describes it: counts and totals are
    occurrence counts, here below [2^53 - 1] so that every numerator
    [count + 1] and denominator [total + 2] converts to binary64 exactly. *)
Definition occurrence_count (c : Z) : Prop := (0 ≤ c < 2 ^ 53 - 1)%Z.

Definition occurrence_counts (m : classifier) : Prop :=
  (∀ t c, spam_counts m !! t = Some c → occurrence_count c) ∧
  (∀ t c, ham_counts m !! t = Some c → occurrence_count c) ∧
  occurrence_count (total_spam m) ∧ occurrence_count (total_ham m).

(** Counts and totals whose numerators [count + 1] and denominators
    [total + 2] are at most [2^53] in absolute value, negative ones
    included: Python converts each of them to binary64 exactly, so that
    [true_div] is its division. Beyond that Python rounds the exact
    quotient or raises OverflowError, which [true_div] does not follow. *)
Definition exact_int (z : Z) : Prop := (- 2 ^ 53 ≤ z ≤ 2 ^ 53)%Z.

Definition exact_counts (m : classifier) : Prop :=
  (∀ t c, spam_counts m !! t = Some c → exact_int (c + 1)) ∧
  (∀ t c, ham_counts m !! t = Some c → exact_int (c + 1)) ∧
  exact_int (total_spam m + 2) ∧ exact_int (total_ham m + 2).

(** ** The three detectors, stated on the token list

    The lexicon detector fires when the stem of some token is a banned
    word, the phonetic detector when the Soundex code of some token is the
    code of some lexicon word, the Bayesian detector when the score
    exceeds the threshold. *)

Definition lexicon_fires (stem : string → string) (l : lexicon)
    (tokens : list string) : Prop :=
  ∃ t, t ∈ tokens ∧ stem t ∈ banned_words l.

Definition phonetic_fires (l : lexicon) (tokens : list string) : Prop :=
  ∃ t code w, t ∈ tokens ∧ soundex t = Ok code ∧ soundex_codes l !! w = Some code.

Definition bayes_fires (m : classifier) (tokens : list string) : Prop :=
  ∃ p, calculate_spam_probability m tokens = Ok p ∧ (threshold <? p)%float = true.

(** Tokens as the tokenizer produces them: never the empty string. *)
Definition nonempty_tokens (tokens : list string) : Prop :=
  Forall (fun t => t ≠ "") tokens.

(** ** Statements of the specification that the code does not meet *)

(** Section 4.6: a due row whose attempt fails with a transient error
    stays in the store. *)
Definition transient_failure_keeps_row : Prop :=
  ∀ (now : Z) (env : row → attempt) (d : db) (r : row),
    r ∈ rows d → (deletion_time r ≤ now)%Z → env r = OtherError →
    r ∈ rows (delete_expired_messages now env d).1.

(** Section 4.7: the handler issues no deletion request. *)
Definition handler_never_deletes (tokenize : string → list string)
    (stem : string → string) : Prop :=
  ∀ (now : Z) (msg : message) (c : cog) (ch mid : Z),
    DeleteRequest ch mid ∉ (on_message tokenize stem now msg c).2.

(** Sections 4.4 and 8: a token with the stem of a banned word is flagged
    by the lexicon check. *)
Definition same_stem_flagged (tokenize : string → list string)
    (stem : string → string) : Prop :=
  ∀ (l : lexicon) (w t text : string),
    w ∈ banned_words l → t ∈ tokenize text → stem t = stem w →
    lexicon_match stem l (tokenize text) = true.

(** Section 8: a token that is an exception word is not flagged by the
    lexicon check of a loaded lexicon. *)
Definition exception_never_flagged (tokenize : string → list string)
    (stem : string → string) : Prop :=
  ∀ (banned_file exceptions_file : option (list string)) (old : lexicon)
    (t text : string),
    let l := load_banned_words banned_file exceptions_file old in
    t ∈ exceptions l → tokenize text = [t] →
    lexicon_match stem l (tokenize text) = false.




(** The primary key: ids are distinct and below the AUTOINCREMENT counter. *)
Definition wf_db (d : db) : Prop :=
  NoDup (infraction_id <$> rows d) ∧
  Forall (fun r => (infraction_id r < next_id d)%Z) (rows d).

(** A binary64 value that is NaN or has sign bit [s]. *)
Definition signed_as (s : bool) (x : spec_float) : Prop :=
  match x with
  | S754_nan => True
  | S754_zero s' | S754_infinity s' | S754_finite s' _ _ => s' = s
  end.

Definition nonneg_or_nan (x : float) : Prop := signed_as false (Prim2SF x).

(** ** The phonetic rule as the specification words it (section 4.2)

    "This also naturally drops a digit equal to the previous one even
    across an unmapped letter": of two same-class letters after the first
    letter, separated by unmapped letters only, the second adds nothing,
    so the code is the one of the word without it. *)
Definition unmapped (c : ascii) : Prop := soundex_digit c = "0"%char.

Definition dropped_across_unmapped : Prop :=
  ∀ (first : ascii) (pre mid post : list ascii) (x y : ascii),
    soundex_digit x = soundex_digit y →
    ¬ unmapped x →
    Forall unmapped mid →
    soundex_chars (first :: pre ++ x :: mid ++ y :: post)
    = soundex_chars (first :: pre ++ x :: mid ++ post).

(** ** Sample data *)

Definition no_lexicon : lexicon := Lexicon ∅ ∅ ∅.

Definition empty_model : classifier := Classifier ∅ ∅ 0 0.


(** Banned: "cats" and "dog"; exception: "fish". *)
Definition pets_lexicon : lexicon :=
  load_banned_words (Some ["cats"; "# pets"; " Dog "; "fish"]) (Some ["fish"])
                    no_lexicon.

(** Banned: "class"; exception: "classes". *)
Definition class_lexicon : lexicon :=
  load_banned_words (Some ["class"]) (Some ["classes"]) no_lexicon.

Definition sample_cog : cog :=
  Cog pets_lexicon empty_model 21600 (Some 99%Z) (Db [] 1).

Definition sample_message : message :=
  Message 10 20 30 false 1000 "Bad Dog" (Some "Pets").

Definition always (a : attempt) : row → attempt := fun _ => a.

(** ** Lexicon files and the administrative commands

    A lexicon file is its text, or [None] when the path does not exist.
    [file_lines] is the line iterator of the file library ([async for
    line in f]): the text is cut after every line feed, which stays at the
    end of its line. [splitlines] is [str.splitlines] on ASCII text: a
    line ends at a line feed, vertical tab, form feed, carriage return (a
    carriage return and line feed together count once) or one of the
    separators 28 to 30, the terminator is dropped, and no empty line is
    reported after the last terminator. *)

Fixpoint file_lines_from (cur : list ascii) (l : list ascii) : list string :=
  match l with
  | [] => match cur with [] => [] | _ => [str (rev cur)] end
  | c :: l' =>
      if bool_decide (c = "010"%char)
      then str (rev (c :: cur)) :: file_lines_from [] l'
      else file_lines_from (c :: cur) l'
  end.

Definition file_lines (content : string) : list string :=
  file_lines_from [] (chars content).

Definition is_linebreak (c : ascii) : bool :=
  let n := nat_of_ascii c in
  ((10 <=? n)%nat && (n <=? 13)%nat) || ((28 <=? n)%nat && (n <=? 30)%nat).

Fixpoint splitlines_from (cur : list ascii) (l : list ascii) : list string :=
  match l with
  | [] => match cur with [] => [] | _ => [str (rev cur)] end
  | c :: l' =>
      if bool_decide (c = "013"%char)
      then match l' with
           | c' :: l'' =>
               if bool_decide (c' = "010"%char)
               then str (rev cur) :: splitlines_from [] l''
               else str (rev cur) :: splitlines_from [] l'
           | [] => str (rev cur) :: splitlines_from [] l'
           end
      else if is_linebreak c
           then str (rev cur) :: splitlines_from [] l'
           else splitlines_from (c :: cur) l'
  end.

Definition splitlines (content : string) : list string :=
  splitlines_from [] (chars content).

(** ['\n'.join(words) + '\n'] *)
Definition join_lines (ws : list string) : string :=
  match ws with
  | [] => "" ++ str ["010"%char]
  | w :: ws' =>
      foldl (fun acc w' => acc ++ str ["010"%char] ++ w')%string w ws'
      ++ str ["010"%char]
  end%string.

(** [data/banned_words.txt] and [data/exceptions.txt]. *)
Record lexicon_files : Type := LexiconFiles {
  banned_words_txt : option string;
  exceptions_txt : option string
}.

(** [load_banned_words] on the files as they are on disk. *)
Definition reload (fs : lexicon_files) (old : lexicon) : lexicon :=
  load_banned_words (file_lines <$> banned_words_txt fs)
                    (file_lines <$> exceptions_txt fs) old.

(** What the command answers in the channel. *)
Inductive reply : Type :=
| Reloaded          (* "Banned words have been reloaded." *)
| Added             (* "Added `word` to the banned words list." *)
| FileMissing       (* "Banned words file does not exist." *)
| NotListed         (* "The word `word` is not in the banned words list." *)
| Removed           (* "Removed `word` from the banned words list." *)
| CommandFailed.    (* "An error occurred while removing the banned word." *)

Definition reload_banned_words (fs : lexicon_files) (old : lexicon)
    : lexicon_files * lexicon * reply :=
  (fs, reload fs old, Reloaded).

(** [add_banned_word]: the file is opened for appending (and created when
    missing), [f"{word}\n"] is written at its end, and the lexicon is
    loaded again. *)
Definition add_banned_word (word : string) (fs : lexicon_files) (old : lexicon)
    : lexicon_files * lexicon * reply :=
  let content := default "" (banned_words_txt fs) in
  let fs' := LexiconFiles (Some (content ++ word ++ str ["010"%char])%string)
                          (exceptions_txt fs) in
  (fs', reload fs' old, Added).

(** [[line.strip() for line in content.splitlines()
       if line.strip() and not line.startswith('#')]] *)
Definition listed_words (content : string) : list string :=
  strip <$> filter (fun line => strip line ≠ "" ∧ startswith_hash line = false)
                   (splitlines content).

(** What an [await] expression is applied to: a coroutine, which gives
    its value, or a value that is not awaitable, on which [await] raises
    TypeError ([None] below). *)
Inductive awaited (A : Type) : Type :=
| Coroutine (a : A)
| NotAwaitable.
Arguments Coroutine {A} a.
Arguments NotAwaitable {A}.

Definition await {A : Type} (x : awaited A) : option A :=
  match x with
  | Coroutine a => Some a
  | NotAwaitable => None
  end.

(** [f.seek(offset)] of the file library is a plain method: it sets the
    offset of the next read or write and returns [None], not a
    coroutine. *)
Definition seek (offset : nat) : awaited unit := NotAwaitable.

(** [remove_banned_word]: a missing file and a word that is not listed
    (compared in lower case) are reported. For a listed word the
    remaining words are computed and [await f.seek(0)] comes next; the
    rewrite of the file, one word per line, and the reload follow it.
    An exception is caught by the command's [except Exception], which
    answers with the error message. *)
Definition remove_banned_word (word : string) (fs : lexicon_files) (old : lexicon)
    : lexicon_files * lexicon * reply :=
  match banned_words_txt fs with
  | None => (fs, old, FileMissing)
  | Some content =>
      let words := listed_words content in
      if bool_decide (lower word ∉ lower <$> words)
      then (fs, old, NotListed)
      else
        let words := filter (fun w => lower w ≠ lower word) words in
        match await (seek 0) with
        | Some _ =>
            let fs' := LexiconFiles (Some (join_lines words)) (exceptions_txt fs) in
            (fs', reload fs' old, Removed)
        | None => (fs, old, CommandFailed)
        end
  end.

(** Text that is empty or ends with a line feed. *)
Definition ends_with_newline (content : string) : Prop :=
  content = "" ∨ ∃ body, content = (body ++ str ["010"%char])%string.

(** Sample lexicon files: "cats", a comment, "Dog" with blanks around it
    and "fish" are listed; "fish" is an exception. *)
Definition sample_files : lexicon_files :=
  LexiconFiles (Some "cats
# pets
 Dog 
fish
") (Some "fish
").

(** ** Rate limiter ([utils/rate_limiter.py])

    [call_history] maps a key to the clock readings of its recorded
    calls, oldest first; a missing key reads as the empty list. Clock
    readings and the time frame are binary64 numbers. *)

Record rate_limiter : Type := RateLimiter {
  max_calls : Z;
  time_frame : float;
  call_history : gmap string (list float)
}.

(** [while history and current_time - history[0] > self.time_frame:
       history.pop(0)] *)
Fixpoint drop_stale (current_time frame : float) (history : list float)
    : list float :=
  match history with
  | t :: rest =>
      if (frame <? current_time - t)%float
      then drop_stale current_time frame rest
      else history
  | [] => []
  end.

(** [check_rate_limit]: [true] when the call is recorded, [false] when
    [RateLimitError] is raised. The list of the key is created by the
    lookup and pruned in place on both paths. *)
Definition check_rate_limit (current_time : float) (key : string)
    (rl : rate_limiter) : rate_limiter * bool :=
  let history := drop_stale current_time (time_frame rl)
                            (default [] (call_history rl !! key)) in
  if (max_calls rl <=? Z.of_nat (length history))%Z
  then (RateLimiter (max_calls rl) (time_frame rl)
          (<[key := history]> (call_history rl)), false)
  else (RateLimiter (max_calls rl) (time_frame rl)
          (<[key := history ++ [current_time]]> (call_history rl)), true).

(** [get_remaining_calls]: the entries younger than the time frame are
    kept and stored back. *)
Definition get_remaining_calls (current_time : float) (key : string)
    (rl : rate_limiter) : rate_limiter * Z :=
  let history := filter (fun t => (current_time - t <? time_frame rl)%float = true)
                        (default [] (call_history rl !! key)) in
  (RateLimiter (max_calls rl) (time_frame rl) (<[key := history]> (call_history rl)),
   Z.max 0 (max_calls rl - Z.of_nat (length history))).

(** [max(0.0, x)]: the second argument wins only when it is greater. *)
Definition max_zero (x : float) : float :=
  if (0 <? x)%float then x else 0%float.

(** [get_reset_time]: reads the history without creating it. *)
Definition get_reset_time (current_time : float) (key : string)
    (rl : rate_limiter) : float :=
  match default [] (call_history rl !! key) with
  | [] => 0%float
  | oldest_call :: _ =>
      max_zero (time_frame rl - (current_time - oldest_call))%float
  end.

(** [CommandRateLimiter.__call__]: the verdict, and the waiting time told
    to the user when the call is refused; the clock is read once by the
    check and once more for the message. *)
Definition command_rate_limit (t_check t_reply : float) (key : string)
    (rl : rate_limiter) : rate_limiter * bool * option float :=
  let '(rl', allowed) := check_rate_limit t_check key rl in
  if allowed then (rl', true, None)
  else (rl', false, Some (get_reset_time t_reply key rl')).

(** The history of a key. *)
Definition history_of (key : string) (rl : rate_limiter) : list float :=
  default [] (call_history rl !! key).

(** A use of the limiter: a check or a query of the remaining calls. *)
Inductive limiter_op : Type :=
| Check (current_time : float) (key : string)
| Remaining (current_time : float) (key : string).

Definition limiter_step (rl : rate_limiter) (op : limiter_op) : rate_limiter :=
  match op with
  | Check t key => (check_rate_limit t key rl).1
  | Remaining t key => (get_remaining_calls t key rl).1
  end.

(** ** Circuit breaker ([utils/circuit_breaker.py])

    One call at a time: the lock is not modelled. *)

Inductive circuit_state : Type := CLOSED | OPEN | HALF_OPEN.

Record circuit_breaker : Type := CircuitBreaker {
  failure_threshold : Z;
  recovery_time : float;
  reset_timeout : float;
  cb_state : circuit_state;
  failures : Z;
  last_failure_time : option float
}.

(** [CircuitBreaker(failure_threshold, recovery_time, reset_timeout)] *)
Definition new_breaker (threshold : Z) (recovery reset : float) : circuit_breaker :=
  CircuitBreaker threshold recovery reset CLOSED 0 None.

(** Truth value of [self.last_failure_time]: [None] and zero are false. *)
Definition truthy (t : option float) : bool :=
  match t with
  | None => false
  | Some x => negb (x =? 0)%float
  end.

(** [_reset_failure_count_if_needed] *)
Definition reset_failure_count_if_needed (now : float) (cb : circuit_breaker)
    : circuit_breaker :=
  match last_failure_time cb with
  | Some t =>
      if truthy (Some t) && (reset_timeout cb <=? now - t)%float
      then CircuitBreaker (failure_threshold cb) (recovery_time cb) (reset_timeout cb)
                          (cb_state cb) 0 None
      else cb
  | None => cb
  end.

(** [_record_failure] *)
Definition record_failure (now : float) (cb : circuit_breaker) : circuit_breaker :=
  let n := (failures cb + 1)%Z in
  CircuitBreaker (failure_threshold cb) (recovery_time cb) (reset_timeout cb)
                 (if (failure_threshold cb <=? n)%Z then OPEN else cb_state cb)
                 n (Some now).

(** [_reset] *)
Definition reset_breaker (cb : circuit_breaker) : circuit_breaker :=
  CircuitBreaker (failure_threshold cb) (recovery_time cb) (reset_timeout cb)
                 CLOSED 0 None.

(** How a protected call ends. *)
Inductive call_result : Type :=
| Returned            (* the function returned; its result is passed on *)
| Failed              (* the function raised; the exception is re-raised *)
| Blocked             (* CircuitBreakerError, the function was not called *)
| TypeError.          (* [current_time - None] *)

(** The part of [call] before the function runs: [None] when the
    function may run, otherwise how the call ends. *)
Definition before_call (now : float) (cb : circuit_breaker)
    : circuit_breaker * option call_result :=
  match cb_state cb with
  | OPEN =>
      match last_failure_time cb with
      | None => (cb, Some TypeError)
      | Some t =>
          if (recovery_time cb <=? now - t)%float
          then (CircuitBreaker (failure_threshold cb) (recovery_time cb)
                               (reset_timeout cb) HALF_OPEN (failures cb)
                               (last_failure_time cb), None)
          else (cb, Some Blocked)
      end
  | CLOSED => (reset_failure_count_if_needed now cb, None)
  | HALF_OPEN => (cb, None)
  end.

(** [call]: [now] is the clock read before the function runs, [ok] tells
    whether the function returns, [t_fail] is the clock read by
    [_record_failure]. *)
Definition call (now : float) (ok : bool) (t_fail : float) (cb : circuit_breaker)
    : circuit_breaker * call_result :=
  match before_call now cb with
  | (cb', Some r) => (cb', r)
  | (cb', None) =>
      if ok
      then match cb_state cb' with
           | HALF_OPEN => (reset_breaker cb', Returned)
           | _ => (cb', Returned)
           end
      else (record_failure t_fail cb', Failed)
  end.

(** A sequence of protected calls. *)
Fixpoint calls (cb : circuit_breaker) (cs : list (float * bool * float))
    : circuit_breaker * list call_result :=
  match cs with
  | [] => (cb, [])
  | (now, ok, t_fail) :: cs' =>
      let '(cb1, r) := call now ok t_fail cb in
      let '(cb2, rs) := calls cb1 cs' in
      (cb2, r :: rs)
  end.

(** What holds of a breaker between calls. *)
Definition breaker_inv (cb : circuit_breaker) : Prop :=
  match cb_state cb with
  | CLOSED => (failures cb < failure_threshold cb)%Z
  | OPEN => (failure_threshold cb ≤ failures cb)%Z ∧ last_failure_time cb ≠ None
  | HALF_OPEN => False
  end.

(** * Properties *)

(** ** Binary64 arithmetic on non-negative operands

    The running products of the scorer are products of quotients of
    non-negative integers; they are NaN or carry a clear sign bit, and on
    such values a sum is zero only if both operands are. *)

Module Binary64.

Lemma round_aux_sign s m e l :
  signed_as s (binary_round_aux prec emax s m e l).
Proof.
  unfold binary_round_aux.
  destruct (shr_fexp prec emax m e l) as [mrs' e'].
  destruct (shr_fexp prec emax _ e' loc_Exact) as [mrs'' e''].
  destruct (shr_m mrs''); simpl; [done | | done].
  destruct (Z.leb _ _); done.
Qed.

Lemma round_sign s m e : signed_as s (binary_round prec emax s m e).
Proof.
  unfold binary_round.
  destruct (shl_align _ _ _) as [mz ez]. apply round_aux_sign.
Qed.

(** [digits2_pos] is the bit length. *)
Lemma digits2_lower (m : positive) :
  (2 ^ (Z.pos (digits2_pos m) - 1) <= Z.pos m)%Z.
Proof.
  induction m as [m IH | m IH |]; simpl digits2_pos.
  - rewrite Pos2Z.inj_succ.
    replace (Z.succ (Z.pos (digits2_pos m)) - 1)%Z
      with (Z.succ (Z.pos (digits2_pos m) - 1))%Z by lia.
    rewrite Z.pow_succ_r by lia. lia.
  - rewrite Pos2Z.inj_succ.
    replace (Z.succ (Z.pos (digits2_pos m)) - 1)%Z
      with (Z.succ (Z.pos (digits2_pos m) - 1))%Z by lia.
    rewrite Z.pow_succ_r by lia. lia.
  - simpl. lia.
Qed.

Lemma shr_1_m mrs : (0 <= shr_m mrs)%Z → shr_m (shr_1 mrs) = (shr_m mrs / 2)%Z.
Proof.
  destruct mrs as [m r s]. simpl. intros Hm.
  destruct m as [| [p | p |] | p]; cbn [shr_m]; [done | | | done | lia].
  - apply Z.div_unique with 1%Z; lia.
  - apply Z.div_unique with 0%Z; lia.
Qed.

Lemma iter_shr_1_m (p : positive) : ∀ mrs,
  (0 <= shr_m mrs)%Z →
  shr_m (SpecFloat.iter_pos shr_1 p mrs) = (shr_m mrs / 2 ^ Z.pos p)%Z.
Proof.
  induction p as [p IH | p IH |]; intros mrs Hm; simpl SpecFloat.iter_pos.
  - assert (H1 : (0 <= shr_m (shr_1 mrs))%Z).
    { rewrite shr_1_m by done. apply Z.div_pos; lia. }
    assert (H2 : (0 <= shr_m (SpecFloat.iter_pos shr_1 p (shr_1 mrs)))%Z).
    { rewrite IH by done. apply Z.div_pos; [done | lia]. }
    rewrite IH by done. rewrite IH by done. rewrite shr_1_m by done.
    rewrite !Z.div_div by lia. f_equal.
    change 2%Z with (2 ^ 1)%Z at 1.
    rewrite <- !Z.pow_add_r by lia. f_equal. lia.
  - assert (H2 : (0 <= shr_m (SpecFloat.iter_pos shr_1 p mrs))%Z).
    { rewrite IH by done. apply Z.div_pos; [done | lia]. }
    rewrite IH by done. rewrite IH by done.
    rewrite Z.div_div by lia. f_equal.
    rewrite <- Z.pow_add_r by lia. f_equal. lia.
  - rewrite shr_1_m by done. done.
Qed.

Lemma shr_record_of_loc_m m l : shr_m (shr_record_of_loc m l) = m.
Proof. destruct l as [| []]; done. Qed.

(** Shifting a positive mantissa down to its canonical exponent leaves it
    positive, and the exponent stays at or above [emin]. *)
Lemma shr_fexp_pos (m : positive) e l :
  (emin <= e)%Z →
  (0 < shr_m (fst (shr_fexp prec emax (Z.pos m) e l)))%Z ∧
  (emin <= snd (shr_fexp prec emax (Z.pos m) e l))%Z.
Proof.
  intros He. unfold shr_fexp, shr, Zdigits2.
  pose proof (digits2_lower m) as Hd.
  set (d := Z.pos (digits2_pos m)) in *.
  destruct (fexp prec emax (d + e) - e)%Z as [| p | p] eqn:Hn; simpl.
  - rewrite shr_record_of_loc_m. lia.
  - rewrite iter_shr_1_m by (rewrite shr_record_of_loc_m; lia).
    rewrite shr_record_of_loc_m.
    unfold fexp, SpecFloat.emin, prec, emax in *.
    assert (Hp : (Z.pos p = d - 53)%Z) by lia.
    split; [| lia].
    apply Z.div_str_pos. split; [lia |].
    transitivity (2 ^ (d - 1))%Z; [| done].
    apply Z.pow_le_mono_r; lia.
  - rewrite shr_record_of_loc_m. lia.
Qed.

Lemma round_nearest_even_pos m l : (0 < m)%Z → (0 < round_nearest_even m l)%Z.
Proof.
  intros Hm. destruct l as [| []]; simpl; try lia.
  destruct (Z.even m); lia.
Qed.

Lemma round_aux_nonzero s (m : positive) e l :
  (emin <= e)%Z →
  ∀ s', binary_round_aux prec emax s (Z.pos m) e l ≠ S754_zero s'.
Proof.
  intros He s'. unfold binary_round_aux.
  destruct (shr_fexp_pos m e l He) as [Hm1 He1].
  destruct (shr_fexp prec emax (Z.pos m) e l) as [mrs' e']; simpl in *.
  pose proof (round_nearest_even_pos _ (loc_of_shr_record mrs') Hm1) as Hr.
  destruct (round_nearest_even (shr_m mrs') (loc_of_shr_record mrs'))
    as [| m1 | m1]; try lia.
  destruct (shr_fexp_pos m1 e' loc_Exact He1) as [Hm2 He2].
  destruct (shr_fexp prec emax (Z.pos m1) e' loc_Exact) as [mrs'' e'']; simpl in *.
  destruct (shr_m mrs''); try lia.
  destruct (Z.leb _ _); done.
Qed.

Lemma round_nonzero s (m : positive) e :
  (emin <= e)%Z → ∀ s', binary_round prec emax s m e ≠ S754_zero s'.
Proof.
  intros He s'. unfold binary_round, shl_align.
  set (e1 := fexp prec emax (Z.pos (digits2_pos m) + e)).
  assert (He1 : (emin <= e1)%Z) by (unfold e1, fexp; lia).
  destruct (e1 - e)%Z; by apply round_aux_nonzero.
Qed.

Lemma valid_emin s m e :
  valid_binary (S754_finite s m e) = true → (emin <= e)%Z.
Proof.
  simpl. unfold bounded, canonical_mantissa, fexp.
  intros [H _]%andb_prop. apply Z.eqb_eq in H. lia.
Qed.

(** The sum of two positive finite numbers is never a zero. *)
Lemma add_pos_nonzero m1 e1 m2 e2 :
  valid_binary (S754_finite false m1 e1) = true →
  valid_binary (S754_finite false m2 e2) = true →
  ∀ s', SF64add (S754_finite false m1 e1) (S754_finite false m2 e2) ≠ S754_zero s'.
Proof.
  intros H1%valid_emin H2%valid_emin s'.
  unfold SF64add, SFadd. cbv zeta. unfold cond_Zopp.
  change (Z.pos ?a + Z.pos ?b)%Z with (Z.pos (a + b)).
  unfold binary_normalize. apply round_nonzero. lia.
Qed.



Lemma nonneg_mul x y :
  nonneg_or_nan x → nonneg_or_nan y → nonneg_or_nan (x * y).
Proof.
  unfold nonneg_or_nan, signed_as. rewrite FloatAxioms.mul_spec. unfold SF64mul, SFmul.
  destruct (Prim2SF x) as [sx | sx | | sx mx ex],
           (Prim2SF y) as [sy | sy | | sy my ey];
    simpl; intros Hx Hy; subst; try done.
  pose proof (round_aux_sign false (Z.pos (mx * my)) (ex + ey) loc_Exact) as H.
  destruct (binary_round_aux _ _ _ _ _ _); done.
Qed.

Lemma nonneg_div x y :
  nonneg_or_nan x → nonneg_or_nan y → nonneg_or_nan (x / y).
Proof.
  unfold nonneg_or_nan, signed_as. rewrite FloatAxioms.div_spec. unfold SF64div, SFdiv.
  destruct (Prim2SF x) as [sx | sx | | sx mx ex],
           (Prim2SF y) as [sy | sy | | sy my ey];
    simpl; intros Hx Hy; subst; try done.
  destruct (SFdiv_core_binary _ _ _ _ _ _) as [[mz ez] lz].
  pose proof (round_aux_sign (xorb false false) mz ez lz) as H.
  destruct (binary_round_aux _ _ _ _ _ _); done.
Qed.

Lemma nonneg_of_uint63 n : nonneg_or_nan (of_uint63 n).
Proof.
  unfold nonneg_or_nan, signed_as. rewrite of_uint63_spec.
  pose proof (to_Z_bounded n) as Hn.
  unfold binary_normalize.
  destruct (to_Z n) as [| m | m]; [done | | lia].
  pose proof (round_sign false m 0) as H.
  destruct (binary_round _ _ _ _ _); done.
Qed.

Lemma eqb_zero x :
  (x =? 0)%float = match Prim2SF x with S754_zero _ => true | _ => false end.
Proof.
  rewrite FloatAxioms.eqb_spec. change (Prim2SF 0) with (S754_zero false).
  destruct (Prim2SF x) as [s | s | | s m e]; try done; by destruct s.
Qed.

(** On NaN-or-non-negative operands a sum compares equal to zero exactly
    when both operands do. *)
Lemma add_eqb_zero x y :
  nonneg_or_nan x → nonneg_or_nan y →
  (x + y =? 0)%float = (x =? 0)%float && (y =? 0)%float.
Proof.
  unfold nonneg_or_nan, signed_as. rewrite !eqb_zero, FloatAxioms.add_spec.
  unfold SF64add at 1. unfold SFadd.
  pose proof (Prim2SF_valid x) as Vx. pose proof (Prim2SF_valid y) as Vy.
  destruct (Prim2SF x) as [sx | sx | | sx mx ex],
           (Prim2SF y) as [sy | sy | | sy my ey];
    intros Hx Hy; subst; try done.
  - pose proof (add_pos_nonzero mx ex my ey Vx Vy) as H.
    unfold SF64add, SFadd in H.
    destruct (binary_normalize _ _ _ _ _) as [s | | |]; [by destruct (H s) | done..].
Qed.

End Binary64.

(** ** Phonetic indexer *)

Section SoundexFacts.

Example soundex_robert : soundex "Robert" = Ok "R163".
Proof. reflexivity. Qed.

Example soundex_rupert : soundex "Rupert" = Ok "R163".
Proof. reflexivity. Qed.

Example soundex_empty : soundex "" = Raise IndexError.
Proof. reflexivity. Qed.

(** After a letter has been processed the last entry is its digit,
    whether it was appended or not. *)
Lemma last_soundex_step code x :
  last (soundex_step code x) = Some (soundex_digit x).
Proof.
  unfold soundex_step. case_bool_decide as H; [done |].
  by rewrite last_snoc.
Qed.

Lemma soundex_step_same code x :
  last code = Some (soundex_digit x) → soundex_step code x = code.
Proof. intros H. unfold soundex_step. by rewrite bool_decide_eq_true_2. Qed.

Lemma soundex_step_new code x :
  last code ≠ Some (soundex_digit x) →
  soundex_step code x = code ++ [soundex_digit x].
Proof. intros H. unfold soundex_step. by rewrite bool_decide_eq_false_2. Qed.

(** A run of unmapped letters leaves exactly one placeholder. *)
Lemma unmapped_run_idle code mid :
  last code = Some "0"%char → Forall unmapped mid →
  foldl soundex_step code mid = code.
Proof.
  intros Hlast Hmid. induction Hmid as [| c mid Hc _ IH]; [done |].
  simpl. rewrite soundex_step_same; [done |]. by rewrite Hc.
Qed.

Lemma unmapped_run code mid :
  last code ≠ Some "0"%char → mid ≠ [] → Forall unmapped mid →
  foldl soundex_step code mid = code ++ ["0"%char].
Proof.
  intros Hlast Hne Hmid. destruct Hmid as [| c mid Hc Hmid]; [done |].
  simpl. rewrite soundex_step_new by (by rewrite Hc).
  rewrite Hc. apply unmapped_run_idle; [by rewrite last_snoc | done].
Qed.

Lemma soundex_list_snoc first pre x :
  soundex_list first (pre ++ [x]) = soundex_step (soundex_list first pre) x.
Proof. unfold soundex_list. by rewrite foldl_app. Qed.

Lemma soundex_list_app first pre post :
  soundex_list first (pre ++ post)
  = foldl soundex_step (soundex_list first pre) post.
Proof. unfold soundex_list. by rewrite foldl_app. Qed.

(** C4 (as amended). A digit is dropped only when it equals the entry
    appended immediately before it, and an unmapped letter appends the
    placeholder ['0']: two adjacent letters of one class give one digit,
    while two letters of one class separated by unmapped letters give
    the placeholder and then the digit again. In "BOB" the first letter
    is kept as a letter, so only the second B is encoded. *)
Theorem soundex_repeated_class (first : ascii) (pre mid post : list ascii)
    (x y : ascii) :
  soundex_digit x = soundex_digit y →
  soundex_list first (pre ++ x :: y :: post)
    = soundex_list first (pre ++ x :: post)
  ∧ (¬ unmapped x → mid ≠ [] → Forall unmapped mid →
     soundex_list first (pre ++ x :: mid ++ y :: post)
     = foldl soundex_step
         (soundex_list first (pre ++ [x]) ++ ["0"%char; soundex_digit y]) post)
  ∧ soundex "BOB" = Ok "B100".
Proof.
  intros Hxy. split; [| split; [| reflexivity]].
  - rewrite (soundex_list_app first pre (x :: y :: post)),
            (soundex_list_app first pre (x :: post)).
    simpl. f_equal. apply soundex_step_same.
    by rewrite last_soundex_step, Hxy.
  - intros Hx Hne Hmid.
    replace (pre ++ x :: mid ++ y :: post)
      with ((pre ++ [x]) ++ mid ++ y :: post) by (by rewrite <- app_assoc).
    rewrite soundex_list_app, foldl_app. simpl. f_equal.
    assert (Hl : last (soundex_list first (pre ++ [x])) = Some (soundex_digit x)).
    { rewrite soundex_list_snoc. apply last_soundex_step. }
    rewrite unmapped_run; [| | done | done].
    + rewrite soundex_step_new.
      * by rewrite <- app_assoc.
      * rewrite last_snoc. intros [= E]. apply Hx. unfold unmapped. congruence.
    + rewrite Hl. intros [= E]. by apply Hx.
Qed.

Lemma soundex_repeated_class_witness :
  soundex_digit "B" = soundex_digit "B"
  ∧ soundex_list "A" ([] ++ "B"%char :: "B"%char :: [])
    = soundex_list "A" ([] ++ "B"%char :: [])
  ∧ soundex_list "A" ([] ++ "B"%char :: chars "O" ++ "B"%char :: [])
    = chars "A101".
Proof.
  destruct (soundex_repeated_class "A" [] (chars "O") [] "B" "B" eq_refl)
    as (H1 & H2 & _).
  split; [reflexivity |]. split; [exact H1 |].
  rewrite H2; [reflexivity | | discriminate | ].
  - unfold unmapped. vm_compute. discriminate.
  - repeat constructor.
Defined.

(** C4 (as stated) fails: in "ABOB" both B's are encoded, and so are the
    S and the C of "Ashcraft" on either side of the H. *)
Lemma soundex_abob_not_dropped :
  ¬ dropped_across_unmapped
  ∧ soundex "ABOB" = Ok "A110" ∧ soundex "ABO" = Ok "A100"
  ∧ soundex "Ashcraft" = Ok "A226".
Proof.
  split; [| repeat split; reflexivity].
  intros H.
  specialize (H "A"%char [] (chars "O") [] "B"%char "B"%char eq_refl).
  assert (Hx : ¬ unmapped "B") by (unfold unmapped; vm_compute; discriminate).
  assert (Hm : Forall unmapped (chars "O")) by (repeat constructor).
  specialize (H Hx Hm). vm_compute in H. discriminate H.
Qed.

End SoundexFacts.

(** ** Strings *)

Section StringFacts.

Lemma chars_str l : chars (str l) = l.
Proof. apply list_ascii_of_string_of_list_ascii. Qed.

Lemma str_chars s : str (chars s) = s.
Proof. apply string_of_list_ascii_of_string. Qed.

Lemma chars_nil s : chars s = [] ↔ s = "".
Proof.
  split; [| by intros ->].
  intros H. rewrite <- (str_chars s), H. done.
Qed.

Lemma chars_upper s : chars (upper s) = upper_char <$> chars s.
Proof. unfold upper. by rewrite chars_str. Qed.

Lemma chars_lower s : chars (lower s) = lower_char <$> chars s.
Proof. unfold lower. by rewrite chars_str. Qed.

Lemma lower_nonempty s : s ≠ "" → lower s ≠ "".
Proof.
  intros Hs Hl. apply Hs, chars_nil.
  apply chars_nil in Hl. rewrite chars_lower in Hl.
  by apply fmap_nil_inv in Hl.
Qed.

(** [soundex] raises exactly on the empty word. *)
Lemma soundex_nonempty w : w ≠ "" → ∃ code, soundex w = Ok code.
Proof.
  intros Hw. unfold soundex. rewrite chars_upper.
  destruct (chars w) as [| c cs] eqn:E.
  - by apply chars_nil in E.
  - simpl. eauto.
Qed.

Lemma soundex_raises w e : soundex w = Raise e → w = "".
Proof.
  unfold soundex. rewrite chars_upper.
  destruct (chars w) as [| c cs] eqn:E; [| done].
  intros _. by apply chars_nil.
Qed.

Lemma split_ws_nonempty l : ∀ cur, nonempty_tokens (split_ws cur l).
Proof.
  assert (Hstr : ∀ c cur, str (rev (c :: cur)) ≠ "").
  { intros c cur H. apply chars_nil in H. rewrite chars_str in H.
    apply (f_equal length) in H. rewrite length_rev in H. done. }
  unfold nonempty_tokens.
  induction l as [| c l IH]; intros cur; simpl.
  - destruct cur; [constructor | by repeat constructor].
  - destruct (is_space c); [| apply IH].
    destruct cur; [apply IH |]. constructor; [apply Hstr | apply IH].
Qed.

Lemma words_nonempty text : nonempty_tokens (words text).
Proof. apply split_ws_nonempty. Qed.

End StringFacts.

(** ** Lexicon store *)

Section LexiconFacts.

Lemma load_words_nonempty file w :
  w ∈ load_words_from_file file → w ≠ "".
Proof.
  destruct file as [lines |]; simpl; [| set_solver].
  assert (H : ∀ (acc : gset string),
             (∀ x, x ∈ acc → x ≠ "") →
             ∀ x, x ∈ foldl (fun words line =>
                      let word := strip line in
                      if negb (bool_decide (word = "")) && negb (startswith_hash word)
                      then words ∪ {[ lower word ]} else words) acc lines → x ≠ "").
  { induction lines as [| line lines IH]; intros acc Hacc x; simpl; [apply Hacc |].
    apply IH. intros y.
    destruct (bool_decide (strip line = "")) eqn:E; simpl; [apply Hacc |].
    destruct (startswith_hash (strip line)); simpl; [apply Hacc |].
    apply bool_decide_eq_false in E.
    intros [Hy | ->%elem_of_singleton]%elem_of_union;
      [by apply Hacc | by apply lower_nonempty]. }
  apply H. set_solver.
Qed.

(** The loop of [create_soundex_codes] over words none of which is empty. *)
Lemma soundex_codes_loop (l : list string) : ∀ (acc : gmap string string),
  nonempty_tokens l →
  ∃ m, foldl (fun acc word =>
                soundex_mapping ←r acc;;
                code ←r soundex word;;
                Ok (<[word := code]> soundex_mapping)) (Ok acc) l = Ok m
       ∧ ∀ w, m !! w = if bool_decide (w ∈ l)
                        then match soundex w with Ok c => Some c | Raise _ => None end
                        else acc !! w.
Proof.
  induction l as [| x l IH]; intros acc Hne; cbn [foldl].
  - exists acc. split; [done |]. intros w.
    by rewrite bool_decide_eq_false_2 by set_solver.
  - inversion Hne as [| ? ? Hx Hl]; subst.
    destruct (soundex_nonempty x Hx) as [c Hc]. rewrite Hc. cbn [rbind].
    destruct (IH (<[x := c]> acc) Hl) as (m & Hm & Hlook).
    exists m. split; [done |]. intros w. rewrite Hlook.
    destruct (decide (w ∈ l)) as [Hin | Hnin].
    + rewrite !bool_decide_eq_true_2 by set_solver. done.
    + rewrite (bool_decide_eq_false_2 (w ∈ l)) by done.
      destruct (decide (w = x)) as [-> | Hwx].
      * rewrite lookup_insert_eq, bool_decide_eq_true_2 by set_solver.
        by rewrite Hc.
      * rewrite lookup_insert_ne by done.
        by rewrite bool_decide_eq_false_2 by set_solver.
Qed.

Lemma create_soundex_codes_ok (ws : gset string) :
  (∀ w, w ∈ ws → w ≠ "") →
  ∃ m, create_soundex_codes ws = Ok m ∧ dom m = ws
       ∧ ∀ w c, m !! w = Some c ↔ w ∈ ws ∧ soundex w = Ok c.
Proof.
  intros Hne. unfold create_soundex_codes.
  destruct (soundex_codes_loop (elements ws) ∅) as (m & Hm & Hlook).
  { apply Forall_forall. intros w Hw. apply Hne. set_solver. }
  exists m. split; [done |].
  assert (Hiff : ∀ w c, m !! w = Some c ↔ w ∈ ws ∧ soundex w = Ok c).
  { intros w c. rewrite Hlook. case_bool_decide as Hin.
    - apply elem_of_elements in Hin.
      destruct (soundex w) as [c' |] eqn:E; naive_solver.
    - rewrite lookup_empty. rewrite elem_of_elements in Hin. naive_solver. }
  split; [| done].
  apply set_eq. intros w. rewrite elem_of_dom. split.
  - intros [c Hc]. by apply Hiff in Hc as [? _].
  - intros Hw. destruct (soundex_nonempty w (Hne w Hw)) as [c Hc].
    exists c. by apply Hiff.
Qed.

(** What a load leaves behind: the words of the banned file that are not
    in the exception file, as written, and an index over exactly them. *)
Lemma load_banned_words_spec banned_file exceptions_file old :
  let l := load_banned_words banned_file exceptions_file old in
  banned_words l
    = load_words_from_file banned_file ∖ load_words_from_file exceptions_file
  ∧ exceptions l = load_words_from_file exceptions_file
  ∧ dom (soundex_codes l) = banned_words l
  ∧ ∀ w c, soundex_codes l !! w = Some c ↔ w ∈ banned_words l ∧ soundex w = Ok c.
Proof.
  unfold load_banned_words.
  destruct (create_soundex_codes_ok
              (load_words_from_file banned_file ∖ load_words_from_file exceptions_file))
    as (m & -> & Hdom & Hm).
  { intros w [Hw _]%elem_of_difference. by eapply load_words_nonempty. }
  simpl. done.
Qed.

Lemma lexicon_match_fires stem l tokens :
  lexicon_match stem l tokens = true ↔ lexicon_fires stem l tokens.
Proof.
  unfold lexicon_match, lexicon_fires.
  induction tokens as [| t tokens IH]; simpl.
  - split; [done | intros (t & Ht & _); by apply elem_of_nil in Ht].
  - rewrite orb_true_iff, IH, bool_decide_eq_true. split.
    + intros [H | (t' & Ht' & H)]; [exists t | exists t']; set_solver.
    + intros (t' & [-> | Ht']%elem_of_cons & H); [by left | right; eauto].
Qed.

(** C9 (as amended). After a load the banned set and the exception set
    are disjoint, the index is built over exactly the banned words that
    remain (no exception word has an entry), and a token whose stem is
    an exception word is not flagged by the lexicon check, alone or among
    other such tokens. *)
Theorem exceptions_subtracted (stem : string → string)
    (banned_file exceptions_file : option (list string)) (old : lexicon) :
  let l := load_banned_words banned_file exceptions_file old in
  banned_words l ## exceptions l
  ∧ dom (soundex_codes l) = banned_words l
  ∧ (∀ w, w ∈ exceptions l → soundex_codes l !! w = None)
  ∧ (∀ t, stem t ∈ exceptions l → lexicon_match stem l [t] = false)
  ∧ (∀ tokens, (∀ t, t ∈ tokens → stem t ∈ exceptions l) →
       lexicon_match stem l tokens = false).
Proof.
  intros l.
  destruct (load_banned_words_spec banned_file exceptions_file old)
    as (Hb & He & Hdom & _). fold l in Hb, He, Hdom.
  assert (Hdisj : banned_words l ## exceptions l).
  { rewrite Hb, He. set_solver. }
  assert (Hall : ∀ tokens, (∀ t, t ∈ tokens → stem t ∈ exceptions l) →
                           lexicon_match stem l tokens = false).
  { intros tokens Htok.
    destruct (lexicon_match stem l tokens) eqn:E; [| done].
    apply lexicon_match_fires in E as (t & Ht & Hban).
    specialize (Htok t Ht). set_solver. }
  split; [done |]. split; [done |]. split; [| split; [| done]].
  - intros w Hw. apply not_elem_of_dom. rewrite Hdom. set_solver.
  - intros t Ht. apply Hall. by intros t' ->%list_elem_of_singleton.
Qed.

End LexiconFacts.

(** ** Bayesian classifier *)

Section ScoreFacts.

Lemma nonneg_Z2f z : (0 ≤ z)%Z → nonneg_or_nan (Z2f z).
Proof.
  intros Hz. unfold Z2f.
  destruct (Z.ltb_spec z 0); [lia | apply Binary64.nonneg_of_uint63].
Qed.

Lemma true_div_nonneg a b :
  (0 ≤ a)%Z → (0 < b)%Z →
  ∃ f, true_div a b = Ok f ∧ nonneg_or_nan f.
Proof.
  intros Ha Hb. unfold true_div.
  destruct (Z.eqb_spec b 0); [lia |].
  eexists. split; [done |].
  apply Binary64.nonneg_div; apply nonneg_Z2f; lia.
Qed.

Lemma count_nonneg (counts : gmap string Z) token :
  (∀ t c, counts !! t = Some c → occurrence_count c) →
  (0 ≤ default 0 (counts !! token) + 1)%Z.
Proof.
  intros H. destruct (counts !! token) as [c |] eqn:E; simpl; [| lia].
  apply H in E. unfold occurrence_count in E. lia.
Qed.

Lemma p_token_spam_nonneg m token :
  occurrence_counts m → ∃ f, p_token_spam m token = Ok f ∧ nonneg_or_nan f.
Proof.
  intros (Hs & _ & Hts & _). unfold occurrence_count in Hts.
  apply true_div_nonneg; [by apply count_nonneg | lia].
Qed.

Lemma p_token_ham_nonneg m token :
  occurrence_counts m → ∃ f, p_token_ham m token = Ok f ∧ nonneg_or_nan f.
Proof.
  intros (_ & Hh & _ & Hth). unfold occurrence_count in Hth.
  apply true_div_nonneg; [by apply count_nonneg | lia].
Qed.

(** The single loop of the code computes the two running products. *)
Lemma likelihoods_products m tokens : ∀ s h,
  occurrence_counts m → nonneg_or_nan s → nonneg_or_nan h →
  ∃ sp hp,
    likelihoods m tokens s h = Ok (sp, hp)
    ∧ running_product (p_token_spam m) tokens s = Ok sp
    ∧ running_product (p_token_ham m) tokens h = Ok hp
    ∧ nonneg_or_nan sp ∧ nonneg_or_nan hp.
Proof.
  induction tokens as [| token rest IH]; intros s h Hm Hs Hh; simpl.
  - by exists s, h.
  - destruct (p_token_spam_nonneg m token Hm) as (fs & Efs & Hfs).
    destruct (p_token_ham_nonneg m token Hm) as (fh & Efh & Hfh).
    unfold p_token_spam in Efs. unfold p_token_ham in Efh.
    unfold p_token_spam at 1. unfold p_token_ham at 1.
    rewrite Efs, Efh. simpl.
    apply IH; [done | by apply Binary64.nonneg_mul..].
Qed.

Lemma nonneg_one : nonneg_or_nan 1.
Proof. reflexivity. Qed.

(** The score on a model of occurrence counts: the two products exist and
    the guard of the code is the guard of the specification. *)
Lemma score_returns m tokens :
  occurrence_counts m →
  ∃ sp hp,
    running_product (p_token_spam m) tokens 1 = Ok sp
    ∧ running_product (p_token_ham m) tokens 1 = Ok hp
    ∧ calculate_spam_probability m tokens
      = Ok (if (sp =? 0)%float && (hp =? 0)%float then 0%float
            else (sp / (sp + hp))%float).
Proof.
  intros Hm.
  destruct (likelihoods_products m tokens 1 1 Hm nonneg_one nonneg_one)
    as (sp & hp & Hl & Hsp & Hhp & Nsp & Nhp).
  exists sp, hp. split; [done |]. split; [done |].
  unfold calculate_spam_probability. rewrite Hl. simpl.
  rewrite Binary64.add_eqb_zero by done.
  by destruct ((sp =? 0)%float && (hp =? 0)%float).
Qed.

(** C6. On a model of occurrence counts, the score computed by
    [calculate_spam_probability] is the Laplace-smoothed naive-Bayes
    posterior of the specification: both running products start at 1.0
    and take one factor [(count+1)/(total+2)] per token, the result is
    [spamProduct / (spamProduct + hamProduct)], and it is 0.0 exactly in
    the case where both products are 0; no exception is raised. *)
Theorem score_is_posterior (m : classifier) (tokens : list string) :
  occurrence_counts m →
  calculate_spam_probability m tokens = posterior m tokens
  ∧ ∃ sp hp,
      running_product (p_token_spam m) tokens 1 = Ok sp
      ∧ running_product (p_token_ham m) tokens 1 = Ok hp
      ∧ calculate_spam_probability m tokens
        = Ok (if (sp =? 0)%float && (hp =? 0)%float then 0%float
              else (sp / (sp + hp))%float).
Proof.
  intros Hm.
  destruct (score_returns m tokens Hm) as (sp & hp & Hsp & Hhp & E).
  split.
  - rewrite E. unfold posterior. rewrite Hsp, Hhp. simpl.
    by destruct ((sp =? 0)%float && (hp =? 0)%float).
  - by exists sp, hp.
Qed.

Lemma score_is_posterior_witness :
  occurrence_counts (Classifier {[ "hello" := 5%Z ]} {[ "spam" := 3%Z ]} 5 3)
  ∧ calculate_spam_probability
      (Classifier {[ "hello" := 5%Z ]} {[ "spam" := 3%Z ]} 5 3) ["spam"; "eggs"]
    = posterior (Classifier {[ "hello" := 5%Z ]} {[ "spam" := 3%Z ]} 5 3)
                ["spam"; "eggs"].
Proof.
  assert (H : occurrence_counts (Classifier {[ "hello" := 5%Z ]} {[ "spam" := 3%Z ]} 5 3)).
  { unfold occurrence_counts, occurrence_count. simpl.
    split; [| split; [| split]]; [| | lia | lia].
    - intros t c [_ <-]%lookup_singleton_Some. lia.
    - intros t c [_ <-]%lookup_singleton_Some. lia. }
  split; [exact H |].
  exact (proj1 (score_is_posterior _ ["spam"; "eggs"] H)).
Defined.

(** The underflow case is reached: 1100 unseen tokens drive both
    products to 0 and the score is 0.0. *)
Example score_underflow :
  calculate_spam_probability (Classifier ∅ ∅ 0 0) (replicate 1100 "x") = Ok 0%float.
Proof. vm_compute. reflexivity. Qed.

(** Outside the data model the guard of the code is wider than the
    wording: with a negative count the products are -1 and 1. *)
Example score_negative_count :
  calculate_spam_probability
    (Classifier {[ "x" := 1%Z ]} {[ "x" := (-3)%Z ]} 0 0) ["x"] = Ok 0%float
  ∧ posterior (Classifier {[ "x" := 1%Z ]} {[ "x" := (-3)%Z ]} 0 0) ["x"]
    = Ok neg_infinity.
Proof. vm_compute. split; reflexivity. Qed.

(** C7. With no tokens both products keep their seed 1.0, the score is
    0.5 for every model, 0.5 does not exceed the threshold, and the
    empty token list is not flagged. *)
Theorem empty_score_not_flagged (stem : string → string) (l : lexicon)
    (m : classifier) :
  likelihoods m [] 1 1 = Ok (1%float, 1%float)
  ∧ calculate_spam_probability m [] = Ok 0.5%float
  ∧ (threshold <? 0.5)%float = false
  ∧ check_tokens stem l m [] = Ok false.
Proof. repeat split. Qed.

End ScoreFacts.

(** ** Classification pipeline *)

Section PipelineFacts.
Variable tokenize : string → list string.
Variable stem : string → string.

Lemma code_known_spec l code :
  code_known l code = true ↔ ∃ w, soundex_codes l !! w = Some code.
Proof.
  unfold code_known. rewrite bool_decide_eq_true, list_elem_of_fmap. split.
  - intros ([w c] & -> & H%elem_of_map_to_list). by exists w.
  - intros [w H]. exists (w, code). by rewrite elem_of_map_to_list.
Qed.

(** The phonetic loop on tokens none of which is empty: it returns, and
    it returns [True] exactly when some token's code is a lexicon code. *)
Lemma phonetic_match_fires l tokens :
  nonempty_tokens tokens →
  ∃ b, phonetic_match l tokens = Ok b ∧ (b = true ↔ phonetic_fires l tokens).
Proof.
  unfold phonetic_fires.
  induction 1 as [| t tokens Ht Hne (b & Hb & IH)]; simpl.
  - exists false. split; [done |].
    split; [done | intros (t & ? & ? & Hin & _); by apply elem_of_nil in Hin].
  - destruct (soundex_nonempty t Ht) as [code Hcode]. rewrite Hcode. simpl.
    destruct (code_known l code) eqn:Hk.
    + exists true. split; [done |]. split; [| done]. intros _.
      apply code_known_spec in Hk as [w Hw].
      exists t, code, w. split; [by left | done].
    + exists b. split; [done |]. rewrite IH. split.
      * intros (t' & c' & w & Hin & H1 & H2). exists t', c', w.
        split; [by right | done].
      * intros (t' & c' & w & [-> | Hin]%elem_of_cons & H1 & H2).
        -- rewrite Hcode in H1. injection H1 as <-.
           assert (code_known l code = true) by (apply code_known_spec; eauto).
           congruence.
        -- exists t', c', w. done.
Qed.

Lemma lexicon_hit_wins l m tokens :
  lexicon_fires stem l tokens → check_tokens stem l m tokens = Ok true.
Proof. intros H%lexicon_match_fires. unfold check_tokens. by rewrite H. Qed.

Lemma check_tokens_cases l m tokens :
  nonempty_tokens tokens →
  (¬ lexicon_fires stem l tokens → phonetic_fires l tokens →
     check_tokens stem l m tokens = Ok true)
  ∧ (¬ lexicon_fires stem l tokens → ¬ phonetic_fires l tokens →
     check_tokens stem l m tokens
     = (p ←r calculate_spam_probability m tokens;; Ok (threshold <? p)%float))
  ∧ (check_tokens stem l m tokens = Ok true
     ↔ lexicon_fires stem l tokens ∨ phonetic_fires l tokens
       ∨ bayes_fires m tokens).
Proof.
  intros Hne. unfold check_tokens.
  destruct (phonetic_match_fires l tokens Hne) as (b & Hb & Hphon).
  rewrite Hb. simpl.
  destruct (lexicon_match stem l tokens) eqn:Hlex.
  { apply lexicon_match_fires in Hlex. naive_solver. }
  assert (Hnolex : ¬ lexicon_fires stem l tokens).
  { rewrite <- lexicon_match_fires. congruence. }
  destruct b.
  { assert (phonetic_fires l tokens) by (by apply Hphon). naive_solver. }
  assert (Hnophon : ¬ phonetic_fires l tokens).
  { rewrite <- Hphon. congruence. }
  assert (Hscore : (p ←r calculate_spam_probability m tokens;;
                    if (threshold <? p)%float then Ok true else Ok false)
                   = (p ←r calculate_spam_probability m tokens;;
                      Ok (threshold <? p)%float)).
  { destruct (calculate_spam_probability m tokens) as [p |]; simpl; [| done].
    by destruct (threshold <? p)%float. }
  rewrite Hscore.
  split; [done |]. split; [done |].
  unfold bayes_fires.
  destruct (calculate_spam_probability m tokens) as [p |]; simpl.
  - split.
    + intros [= Hp]. right. right. by exists p.
    + intros [? | [? | (p' & [= <-] & Hp)]]; [done | done | by rewrite Hp].
  - split; [done |]. intros [? | [? | (p' & ? & _)]]; done.
Qed.

(** C1. [check_message] flags a text exactly when a detector fires, and
    the detectors run in the order lexicon, phonetic, Bayesian with the
    first match winning: a lexicon hit returns [True] whatever the later
    stages would do; without one, a phonetic hit returns [True] whatever
    the classifier model is; without either, the result is the
    comparison of the Bayesian score with the threshold. *)
Theorem check_message_first_match (l : lexicon) (m : classifier) (text : string) :
  let tokens := tokenize text in
  (lexicon_fires stem l tokens →
     check_message tokenize stem l m text = Ok true)
  ∧ (nonempty_tokens tokens →
     (¬ lexicon_fires stem l tokens → phonetic_fires l tokens →
        check_message tokenize stem l m text = Ok true)
     ∧ (¬ lexicon_fires stem l tokens → ¬ phonetic_fires l tokens →
        check_message tokenize stem l m text
        = (p ←r calculate_spam_probability m tokens;;
           Ok (threshold <? p)%float))
     ∧ (check_message tokenize stem l m text = Ok true
        ↔ lexicon_fires stem l tokens ∨ phonetic_fires l tokens
          ∨ bayes_fires m tokens)).
Proof.
  intros tokens. unfold check_message. fold tokens.
  split; [apply lexicon_hit_wins | apply check_tokens_cases].
Qed.



(** C3 (as amended). Lexicon words are kept as written (stripped and
    lower-cased, never stemmed); only message tokens are stemmed. The
    lexicon check therefore flags a message exactly when the stem of one
    of its tokens is itself a banned word as written: for a banned word
    [w] and a token [t] with [stem t = w] the message is flagged. *)
Theorem stemmed_token_in_lexicon (l : lexicon) (m : classifier)
    (text w t : string) :
  w ∈ banned_words l → t ∈ tokenize text → stem t = w →
  lexicon_match stem l (tokenize text) = true
  ∧ check_message tokenize stem l m text = Ok true.
Proof.
  intros Hw Ht Hst.
  assert (H : lexicon_fires stem l (tokenize text)).
  { exists t. by rewrite Hst. }
  split; [by apply lexicon_match_fires |].
  by apply lexicon_hit_wins.
Qed.

End PipelineFacts.

(** ** Infraction scheduler: the sweep *)

Section SweepFacts.

Lemma sweep_rows_log env sel : ∀ d log,
  (sweep_rows env sel d log).2
  = log ++ ((fun r => (infraction_id r, env r)) <$> sel).
Proof.
  induction sel as [| r sel IH]; intros d log; simpl.
  - by rewrite app_nil_r.
  - rewrite IH. by rewrite <- app_assoc.
Qed.

Lemma sweep_rows_store env sel : ∀ d log,
  next_id (sweep_rows env sel d log).1 = next_id d
  ∧ rows (sweep_rows env sel d log).1 `sublist_of` rows d
  ∧ ∀ r', r' ∈ rows (sweep_rows env sel d log).1
          ↔ r' ∈ rows d ∧ infraction_id r' ∉ infraction_id <$> sel.
Proof.
  induction sel as [| r sel IH]; intros d log; simpl.
  - split; [done |]. split; [done |]. intros r'. set_solver.
  - destruct (IH (delete_row (infraction_id r) d)
                 (log ++ [(infraction_id r, env r)])) as (Hn & Hsub & Hin).
    split; [done |]. split.
    + etrans; [exact Hsub |]. apply sublist_filter.
    + intros r'. rewrite Hin. simpl. rewrite list_elem_of_filter. set_solver.
Qed.

Lemma select_due_spec now d r :
  r ∈ select_due now d ↔ (deletion_time r ≤ now)%Z ∧ r ∈ rows d.
Proof. unfold select_due. by rewrite list_elem_of_filter. Qed.

(** After the sweep a row is in the store exactly when it was there and
    no due row carried its id. *)
Lemma sweep_store now env d :
  next_id (delete_expired_messages now env d).1 = next_id d
  ∧ rows (delete_expired_messages now env d).1 `sublist_of` rows d
  ∧ ∀ r', r' ∈ rows (delete_expired_messages now env d).1
          ↔ r' ∈ rows d ∧ infraction_id r' ∉ infraction_id <$> select_due now d.
Proof. apply sweep_rows_store. Qed.

Lemma sweep_log now env d :
  (delete_expired_messages now env d).2
  = (fun r => (infraction_id r, env r)) <$> select_due now d.
Proof. unfold delete_expired_messages. by rewrite sweep_rows_log. Qed.

Lemma sweep_clears now env d r' :
  r' ∈ rows (delete_expired_messages now env d).1 → (now < deletion_time r')%Z.
Proof.
  intros [Hin Hid]%sweep_store.
  destruct (Z.lt_ge_cases now (deletion_time r')) as [| Hdue]; [done |].
  exfalso. apply Hid. apply list_elem_of_fmap. exists r'.
  split; [done |]. by apply select_due_spec.
Qed.

Lemma same_id_same_row (l : list row) r1 r2 :
  NoDup (infraction_id <$> l) → r1 ∈ l → r2 ∈ l →
  infraction_id r1 = infraction_id r2 → r1 = r2.
Proof.
  induction l as [| r l IH]; simpl; [by intros _ ?%elem_of_nil |].
  intros [Hr Hl]%NoDup_cons [-> | H1]%elem_of_cons [-> | H2]%elem_of_cons E;
    [done | | | by apply IH].
  - exfalso. apply Hr. rewrite E. apply list_elem_of_fmap. eauto.
  - exfalso. apply Hr. rewrite <- E. apply list_elem_of_fmap. eauto.
Qed.

Lemma wf_sweep now env d :
  wf_db d → wf_db (delete_expired_messages now env d).1.
Proof.
  intros [Hnd Hlt]. destruct (sweep_store now env d) as (Hn & Hsub & _).
  split.
  - eapply sublist_NoDup; [exact Hnd |]. by apply fmap_sublist.
  - rewrite Hn. rewrite Forall_forall in Hlt. apply Forall_forall.
    intros r Hr. apply Hlt. by eapply elem_of_sublist.
Qed.

(** C2 (as amended). A due row is attempted once by the sweep and then
    removed whatever the attempt's outcome, a transient error included:
    it is in the log with its outcome, no row with its id is left, no
    later sweep selects it; rows that are not yet due stay. *)
Theorem due_row_removed_whatever_outcome (now : Z) (env : row → attempt)
    (d : db) (r : row) :
  r ∈ rows d → (deletion_time r ≤ now)%Z →
  (infraction_id r, env r) ∈ (delete_expired_messages now env d).2
  ∧ (env r = OtherError →
     (infraction_id r, OtherError) ∈ (delete_expired_messages now env d).2)
  ∧ (∀ r', r' ∈ rows (delete_expired_messages now env d).1 →
           infraction_id r' ≠ infraction_id r)
  ∧ (∀ now', r ∉ select_due now' (delete_expired_messages now env d).1)
  ∧ (wf_db d → ∀ r', r' ∈ rows d → (now < deletion_time r')%Z →
       r' ∈ rows (delete_expired_messages now env d).1).
Proof.
  intros Hin Hdue.
  assert (Hsel : r ∈ select_due now d) by (by apply select_due_spec).
  assert (Hlog : (infraction_id r, env r) ∈ (delete_expired_messages now env d).2).
  { rewrite sweep_log. apply list_elem_of_fmap. by exists r. }
  assert (Hgone : ∀ r', r' ∈ rows (delete_expired_messages now env d).1 →
                        infraction_id r' ≠ infraction_id r).
  { intros r' [_ Hid]%sweep_store E. apply Hid. rewrite E.
    apply list_elem_of_fmap. by exists r. }
  split; [done |]. split; [by intros <- |]. split; [done |]. split.
  - intros now' [_ Hr]%select_due_spec. by apply (Hgone r).
  - intros [Hnd _] r' Hr' Hlater. apply sweep_store. split; [done |].
    intros (r'' & E & [Hdue'' Hin'']%select_due_spec)%list_elem_of_fmap.
    assert (r' = r'') by (by eapply same_id_same_row). subst. lia.
Qed.

Lemma due_row_removed_whatever_outcome_witness :
  Row 1 10 20 30 0 5 "x" ∈ rows (Db [Row 1 10 20 30 0 5 "x"] 2)
  ∧ (5 ≤ 60)%Z
  ∧ (1%Z, OtherError)
      ∈ (delete_expired_messages 60 (fun _ => OtherError)
           (Db [Row 1 10 20 30 0 5 "x"] 2)).2.
Proof.
  assert (H1 : Row 1 10 20 30 0 5 "x" ∈ rows (Db [Row 1 10 20 30 0 5 "x"] 2))
    by (simpl; apply list_elem_of_singleton; reflexivity).
  assert (H2 : (5 ≤ 60)%Z) by lia.
  split; [exact H1 |]. split; [exact H2 |].
  exact (proj1 (due_row_removed_whatever_outcome 60 (fun _ => OtherError)
                  (Db [Row 1 10 20 30 0 5 "x"] 2) (Row 1 10 20 30 0 5 "x") H1 H2)).
Defined.

(** C2 (as stated) fails: a due row whose attempt ends in the generic
    [except Exception] branch is gone after the sweep, and the next
    sweep finds nothing to retry. *)
Lemma transient_failure_row_dropped :
  ¬ transient_failure_keeps_row
  ∧ delete_expired_messages 60 (fun _ => OtherError) (Db [Row 1 10 20 30 0 5 "x"] 2)
    = (Db [] 2, [(1%Z, OtherError)])
  ∧ select_due 120 (Db [] 2) = [].
Proof.
  split; [| split; reflexivity].
  intros H.
  specialize (H 60%Z (fun _ => OtherError) (Db [Row 1 10 20 30 0 5 "x"] 2)
                (Row 1 10 20 30 0 5 "x")).
  assert (Hin : Row 1 10 20 30 0 5 "x" ∈ rows (Db [Row 1 10 20 30 0 5 "x"] 2))
    by (simpl; apply list_elem_of_singleton; reflexivity).
  assert (Hdue : (5 ≤ 60)%Z) by lia.
  specialize (H Hin Hdue eq_refl).
  vm_compute in H. by apply elem_of_nil in H.
Qed.

End SweepFacts.

(** ** Message handler and runs of the cog *)

Section HandlerFacts.
Variable tokenize : string → list string.
Variable stem : string → string.

(** What [on_message] does to the store: nothing, or one insertion. *)
Lemma on_message_store now msg c :
  store (on_message tokenize stem now msg c).1 = store c
  ∨ store (on_message tokenize stem now msg c).1
    = store_infraction (store c) msg (now + delay c).
Proof.
  unfold on_message. destruct (author_bot msg); [by left |].
  destruct (check_message _ _ _ _ _) as [[] |]; simpl; auto.
Qed.

(** C5 (as amended). For a bot-authored message, an unflagged message or
    a classification that raises, the handler changes nothing and asks
    nothing. For a flagged message it inserts the infraction row, sends
    the announcement when there is an admin channel and the message was
    sent in a server (for a direct message building the announcement
    raises and nothing is sent), sleeps for the delay and then itself
    issues one deletion request for that very message. *)
Theorem on_message_effects (now : Z) (msg : message) (c : cog) :
  (author_bot msg = true
   ∨ check_message tokenize stem (lex c) (model c) (lower (msg_content msg))
     ≠ Ok true →
   on_message tokenize stem now msg c = (c, []))
  ∧ (author_bot msg = false →
     check_message tokenize stem (lex c) (model c) (lower (msg_content msg))
     = Ok true →
     let r := Row (next_id (store c)) (msg_id msg) (msg_channel msg)
                  (msg_author msg) (created_at msg) (now + delay c)
                  (msg_content msg) in
     on_message tokenize stem now msg c
     = (Cog (lex c) (model c) (delay c) (admin_channel c)
            (Db (rows (store c) ++ [r]) (next_id (store c) + 1)),
        Insert r :: announce_infraction c msg
          ++ [Sleep (delay c); DeleteRequest (msg_channel msg) (msg_id msg)])
     ∧ (∀ ch m, Announce ch m ∈ (on_message tokenize stem now msg c).2
                ↔ admin_channel c = Some ch ∧ m = msg ∧ msg_guild msg ≠ None)
     ∧ (∀ ch mid, DeleteRequest ch mid ∈ (on_message tokenize stem now msg c).2
                  ↔ ch = msg_channel msg ∧ mid = msg_id msg)).
Proof.
  unfold on_message. split.
  - intros [-> | Hcheck]; [done |].
    destruct (author_bot msg); [done |].
    destruct (check_message _ _ _ _ _) as [[] |]; done.
  - intros -> ->. cbn [fst snd]. split; [done |].
    unfold announce_infraction. split.
    + intros ch m.
      destruct (admin_channel c) as [ch' |], (msg_guild msg) as [g |];
        cbn [app]; rewrite ?elem_of_cons, ?elem_of_nil; naive_solver.
    + intros ch mid.
      destruct (admin_channel c) as [ch' |], (msg_guild msg) as [g |];
        cbn [app]; rewrite ?elem_of_cons, ?elem_of_nil; naive_solver.
Qed.

Lemma wf_store_infraction d msg t : wf_db d → wf_db (store_infraction d msg t).
Proof.
  intros [Hnd Hlt]. unfold store_infraction, wf_db. simpl.
  rewrite fmap_app. simpl. split.
  - apply NoDup_app. split; [done |]. split; [| apply NoDup_singleton].
    intros i (r & Hi & Hr)%list_elem_of_fmap Hs%list_elem_of_singleton.
    rewrite Forall_forall in Hlt. specialize (Hlt r Hr). lia.
  - apply Forall_app. split.
    + eapply Forall_impl; [exact Hlt |]. simpl. intros. lia.
    + constructor; [simpl; lia | constructor].
Qed.

(** Every id attempted during a run was in the store at the start or is
    issued later by the counter, and no id is attempted twice. *)
Lemma run_attempts (es : list event) : ∀ c,
  wf_db (store c) →
  NoDup ((run tokenize stem c es).2).*1
  ∧ ∀ i, i ∈ ((run tokenize stem c es).2).*1 →
         i ∈ infraction_id <$> rows (store c) ∨ (next_id (store c) ≤ i)%Z.
Proof.
  induction es as [| e es IH]; intros c Hwf; simpl.
  { split; [constructor | by intros i ?%elem_of_nil]. }
  destruct e as [now msg | now env]; simpl.
  - destruct (on_message tokenize stem now msg c) as [c1 fx1] eqn:E1.
    pose proof (on_message_store now msg c) as Hst. rewrite E1 in Hst. simpl in Hst.
    assert (Hwf1 : wf_db (store c1)).
    { destruct Hst as [Hst | Hst]; rewrite Hst;
        [done | by apply wf_store_infraction]. }
    destruct (IH c1 Hwf1) as [Hnd Hids].
    destruct (run tokenize stem c1 es) as [[c2 fx2] log2]. simpl in *.
    split; [done |]. intros i Hi. specialize (Hids i Hi).
    destruct Hst as [Hst | Hst]; rewrite Hst in Hids; [done |].
    unfold store_infraction in Hids. simpl in Hids.
    rewrite fmap_app in Hids. simpl in Hids.
    destruct Hids as [[? | ->%list_elem_of_singleton]%elem_of_app | ?];
      [by left | right; lia | right; lia].
  - destruct (delete_expired_messages now env (store c)) as [d log] eqn:Es.
    pose proof (sweep_store now env (store c)) as (Hn & Hsub & Hin).
    pose proof (sweep_log now env (store c)) as Hlog.
    pose proof (wf_sweep now env (store c) Hwf) as Hwf1.
    rewrite Es in Hn, Hsub, Hin, Hlog, Hwf1. simpl in *.
    destruct (IH (Cog (lex c) (model c) (delay c) (admin_channel c) d) Hwf1)
      as [Hnd Hids].
    destruct (run tokenize stem _ es) as [[c2 fx2] log2]. simpl in *.
    destruct Hwf as [Hnd0 Hlt0].
    assert (Hlog1 : log.*1 = infraction_id <$> select_due now (store c)).
    { rewrite Hlog, <- list_fmap_compose. done. }
    rewrite fmap_app. split.
    + apply NoDup_app. split; [| split; [| done]].
      * rewrite Hlog1. eapply sublist_NoDup; [exact Hnd0 |].
        apply fmap_sublist, sublist_filter.
      * intros i Hi1 Hi2. rewrite Hlog1 in Hi1.
        destruct (Hids i Hi2) as [(r & -> & Hr)%list_elem_of_fmap | Hge].
        -- apply Hin in Hr as [_ Hr]. done.
        -- apply list_elem_of_fmap in Hi1 as (r & -> & [_ Hr]%select_due_spec).
           rewrite Forall_forall in Hlt0. specialize (Hlt0 r Hr). lia.
    + intros i [Hi | Hi]%elem_of_app.
      * left. rewrite Hlog1 in Hi.
        apply list_elem_of_fmap in Hi as (r & -> & [_ Hr]%select_due_spec).
        apply list_elem_of_fmap. eauto.
      * destruct (Hids i Hi) as [(r & -> & Hr)%list_elem_of_fmap | Hge].
        -- left. apply list_elem_of_fmap. exists r. split; [done |].
           by eapply elem_of_sublist.
        -- right. lia.
Qed.

(** C10. One sweep clears every due row: after a sweep at time [now] no
    row with [deletion_time <= now] is left, the log holds one attempt
    per selected row with whatever outcome the platform gave, and over
    any run of arrivals and sweeps no infraction id is attempted twice. *)
Theorem sweep_clears_every_due_row (now : Z) (env : row → attempt) (c : cog)
    (es : list event) :
  Forall (fun r => (now < deletion_time r)%Z)
         (rows (delete_expired_messages now env (store c)).1)
  ∧ (delete_expired_messages now env (store c)).2
    = ((fun r => (infraction_id r, env r)) <$> select_due now (store c))
  ∧ (wf_db (store c) → NoDup ((run tokenize stem c es).2).*1).
Proof.
  split; [| split].
  - apply Forall_forall. intros r. apply sweep_clears.
  - apply sweep_log.
  - intros Hwf. by apply run_attempts.
Qed.

End HandlerFacts.

(** ** Sample runs

    The pipeline run with the whitespace tokenizer and the plural
    stemmer on the sample lexicons. *)

Section Samples.

Local Ltac by_compute :=
  match goal with |- ?P => apply (bool_decide_unpack P); vm_compute; exact I end.

Example pets_banned : elements (banned_words pets_lexicon) = ["cats"; "dog"].
Proof. vm_compute. reflexivity. Qed.

(** The lexicon hit returns before the phonetic loop would raise on an
    empty token, and the phonetic hit before the score would divide by
    zero. *)
Example lexicon_short_circuit :
  check_tokens plural_stem pets_lexicon empty_model [""; "dog"] = Ok true
  ∧ phonetic_match pets_lexicon [""; "dog"] = Raise IndexError.
Proof. vm_compute. split; reflexivity. Qed.

Example phonetic_short_circuit :
  check_tokens plural_stem pets_lexicon (Classifier ∅ ∅ (-2) (-2)) ["cots"] = Ok true
  ∧ calculate_spam_probability (Classifier ∅ ∅ (-2) (-2)) ["cots"]
    = Raise ZeroDivisionError.
Proof. vm_compute. split; reflexivity. Qed.

Example sample_flagged :
  check_message words plural_stem pets_lexicon empty_model "bad dog" = Ok true.
Proof. vm_compute. reflexivity. Qed.

Lemma check_message_first_match_witness :
  nonempty_tokens (words "hello cots")
  ∧ ¬ lexicon_fires plural_stem pets_lexicon (words "hello cots")
  ∧ phonetic_fires pets_lexicon (words "hello cots")
  ∧ check_message words plural_stem pets_lexicon empty_model "hello cots" = Ok true.
Proof.
  assert (H1 : nonempty_tokens (words "hello cots")) by apply words_nonempty.
  assert (H2 : ¬ lexicon_fires plural_stem pets_lexicon (words "hello cots")).
  { intros H%lexicon_match_fires. vm_compute in H. discriminate H. }
  assert (H3 : phonetic_fires pets_lexicon (words "hello cots")).
  { exists "cots", "C320", "cats". split; [by_compute |].
    split; vm_compute; reflexivity. }
  split; [exact H1 |]. split; [exact H2 |]. split; [exact H3 |].
  exact (proj1 (proj2 (check_message_first_match words plural_stem pets_lexicon
                         empty_model "hello cots") H1) H2 H3).
Defined.



Lemma stemmed_token_in_lexicon_witness :
  "dog" ∈ banned_words pets_lexicon
  ∧ "dogs" ∈ words "dogs bark"
  ∧ plural_stem "dogs" = "dog"
  ∧ check_message words plural_stem pets_lexicon empty_model "dogs bark" = Ok true.
Proof.
  assert (H1 : "dog" ∈ banned_words pets_lexicon) by by_compute.
  assert (H2 : "dogs" ∈ words "dogs bark") by by_compute.
  assert (H3 : plural_stem "dogs" = "dog") by reflexivity.
  split; [exact H1 |]. split; [exact H2 |]. split; [exact H3 |].
  exact (proj2 (stemmed_token_in_lexicon words plural_stem pets_lexicon empty_model
                  "dogs bark" "dog" "dogs" H1 H2 H3)).
Defined.

(** C3 (as stated) fails: "cats" is banned and "cat" has the same stem,
    yet the message "cat" passes the lexicon check, and the whole
    pipeline. *)
Lemma same_stem_not_flagged :
  ¬ same_stem_flagged words plural_stem
  ∧ "cats" ∈ banned_words pets_lexicon
  ∧ plural_stem "cat" = plural_stem "cats"
  ∧ lexicon_match plural_stem pets_lexicon (words "cat") = false
  ∧ check_message words plural_stem pets_lexicon empty_model "cat" = Ok false.
Proof.
  assert (H1 : "cats" ∈ banned_words pets_lexicon) by by_compute.
  split; [| split; [exact H1 | repeat split; vm_compute; reflexivity]].
  intros H. specialize (H pets_lexicon "cats" "cat" "cat" H1).
  assert (H2 : "cat" ∈ words "cat") by by_compute.
  specialize (H H2 eq_refl). vm_compute in H. discriminate H.
Qed.

Lemma exceptions_subtracted_witness :
  (∀ t, t ∈ ["fish"] → plural_stem t ∈ exceptions pets_lexicon)
  ∧ lexicon_match plural_stem pets_lexicon ["fish"] = false.
Proof.
  assert (H : ∀ t, t ∈ ["fish"] → plural_stem t ∈ exceptions pets_lexicon).
  { intros t ->%list_elem_of_singleton. by_compute. }
  split; [exact H |].
  exact (proj2 (proj2 (proj2 (proj2
           (exceptions_subtracted plural_stem
              (Some ["cats"; "# pets"; " Dog "; "fish"]) (Some ["fish"]) no_lexicon))))
           ["fish"] H).
Defined.

(** C9 (as stated) fails in its last part: "classes" is an exception
    word, and the token "classes" is flagged by the lexicon check
    because its stem "class" is banned. *)
Lemma exception_word_flagged :
  ¬ exception_never_flagged words plural_stem
  ∧ "classes" ∈ exceptions class_lexicon
  ∧ lexicon_match plural_stem class_lexicon (words "classes") = true
  ∧ check_message words plural_stem class_lexicon empty_model "classes" = Ok true.
Proof.
  assert (H1 : "classes" ∈ exceptions class_lexicon) by by_compute.
  split; [| split; [exact H1 | split; vm_compute; reflexivity]].
  intros H.
  specialize (H (Some ["class"]) (Some ["classes"]) no_lexicon "classes" "classes"
                H1 eq_refl).
  vm_compute in H. discriminate H.
Qed.

Lemma on_message_effects_witness :
  author_bot sample_message = false
  ∧ check_message words plural_stem (lex sample_cog) (model sample_cog)
      (lower (msg_content sample_message)) = Ok true
  ∧ (on_message words plural_stem 5000 sample_message sample_cog).2
    = [Insert (Row 1 10 20 30 1000 26600 "Bad Dog"); Announce 99 sample_message;
       Sleep 21600; DeleteRequest 20 10].
Proof.
  assert (H1 : author_bot sample_message = false) by reflexivity.
  assert (H2 : check_message words plural_stem (lex sample_cog) (model sample_cog)
                 (lower (msg_content sample_message)) = Ok true)
    by (vm_compute; reflexivity).
  split; [exact H1 |]. split; [exact H2 |].
  rewrite (proj1 (proj2 (on_message_effects words plural_stem 5000 sample_message
                           sample_cog) H1 H2)).
  reflexivity.
Defined.

(** C5 (as stated) fails: handling the flagged sample message ends with
    a deletion request for it. *)
Lemma handler_issues_delete :
  ¬ handler_never_deletes words plural_stem
  ∧ DeleteRequest 20 10
      ∈ (on_message words plural_stem 5000 sample_message sample_cog).2.
Proof.
  assert (H : DeleteRequest 20 10
                ∈ (on_message words plural_stem 5000 sample_message sample_cog).2).
  { vm_compute. set_solver. }
  split; [| exact H].
  intros Hn. exact (Hn 5000%Z sample_message sample_cog 20%Z 10%Z H).
Qed.

(** A flagged direct message is recorded and deleted like any other,
    but never announced: the embed cannot be built without a server. *)
Example direct_message_not_announced :
  (on_message words plural_stem 5000
     (Message 10 20 30 false 1000 "Bad Dog" None) sample_cog).2
  = [Insert (Row 1 10 20 30 1000 26600 "Bad Dog"); Sleep 21600;
     DeleteRequest 20 10].
Proof. vm_compute. reflexivity. Qed.

Lemma sweep_clears_every_due_row_witness :
  wf_db (store sample_cog)
  ∧ NoDup ((run words plural_stem sample_cog
              [Arrives 5000 sample_message; Sweep 26600 (always OtherError);
               Sweep 26660 (always Deleted)]).2).*1.
Proof.
  assert (H : wf_db (store sample_cog)).
  { split; simpl; constructor. }
  split; [exact H |].
  exact (proj2 (proj2 (sweep_clears_every_due_row words plural_stem 0
                         (always Deleted) sample_cog
                         [Arrives 5000 sample_message; Sweep 26600 (always OtherError);
                          Sweep 26660 (always Deleted)])) H).
Defined.

Example sample_run_log :
  (run words plural_stem sample_cog
     [Arrives 5000 sample_message; Sweep 26600 (always OtherError);
      Sweep 26660 (always Deleted)]).2
  = [(1%Z, OtherError)].
Proof. vm_compute. reflexivity. Qed.

End Samples.

(** ** More on strings: case mapping and stripping *)

Section CaseAndStrip.

Lemma upper_lower_char c : upper_char (lower_char c) = upper_char c.
Proof. by destruct c as [[] [] [] [] [] [] [] []]. Qed.

Lemma upper_upper_char c : upper_char (upper_char c) = upper_char c.
Proof. by destruct c as [[] [] [] [] [] [] [] []]. Qed.

Lemma lower_lower_char c : lower_char (lower_char c) = lower_char c.
Proof. by destruct c as [[] [] [] [] [] [] [] []]. Qed.

Lemma is_space_lower_char c : is_space (lower_char c) = is_space c.
Proof. by destruct c as [[] [] [] [] [] [] [] []]. Qed.

Lemma lower_char_hash c : lower_char c = "#"%char ↔ c = "#"%char.
Proof. destruct c as [[] [] [] [] [] [] [] []]; split; done. Qed.

Lemma chars_app s1 s2 : chars (s1 ++ s2)%string = chars s1 ++ chars s2.
Proof. induction s1 as [| c s1 IH]; simpl; [done | by rewrite <- IH]. Qed.

Lemma str_app l1 l2 : str (l1 ++ l2) = (str l1 ++ str l2)%string.
Proof.
  rewrite <- (str_chars (str l1 ++ str l2)%string).
  by rewrite chars_app, !chars_str.
Qed.

Lemma chars_inj s1 s2 : chars s1 = chars s2 → s1 = s2.
Proof. intros H. by rewrite <- (str_chars s1), <- (str_chars s2), H. Qed.

Lemma upper_lower s : upper (lower s) = upper s.
Proof.
  apply chars_inj. rewrite !chars_upper, chars_lower, <- list_fmap_compose.
  apply list_fmap_ext. intros _ c _. apply upper_lower_char.
Qed.

Lemma upper_upper s : upper (upper s) = upper s.
Proof.
  apply chars_inj. rewrite !chars_upper, <- list_fmap_compose.
  apply list_fmap_ext. intros _ c _. apply upper_upper_char.
Qed.

Lemma lower_lower s : lower (lower s) = lower s.
Proof.
  apply chars_inj. rewrite !chars_lower, <- list_fmap_compose.
  apply list_fmap_ext. intros _ c _. apply lower_lower_char.
Qed.

Lemma startswith_hash_lower s : startswith_hash (lower s) = startswith_hash s.
Proof.
  destruct s as [| c s]; [done |]. unfold lower. simpl.
  apply bool_decide_ext, lower_char_hash.
Qed.

(** [lstrip] cuts a run of white space off the front. *)
Lemma lstrip_decomp l :
  ∃ sp, l = sp ++ lstrip l ∧ Forall (fun c => is_space c = true) sp.
Proof.
  induction l as [| c l (sp & Hl & Hsp)]; simpl.
  - by exists [].
  - destruct (is_space c) eqn:E.
    + exists (c :: sp). split; [by rewrite Hl at 1 | by constructor].
    + by exists [].
Qed.

Lemma lstrip_head l c : head (lstrip l) = Some c → is_space c = false.
Proof.
  induction l as [| c' l IH]; simpl; [done |].
  destruct (is_space c') eqn:E; [done |]. simpl. by intros [= <-].
Qed.

Lemma lstrip_clean l :
  (∀ c, head l = Some c → is_space c = false) → lstrip l = l.
Proof.
  destruct l as [| c l]; simpl; [done |]. intros H. by rewrite (H c eq_refl).
Qed.

Lemma lstrip_spaces sp l :
  Forall (fun c => is_space c = true) sp → lstrip (sp ++ l) = lstrip l.
Proof. induction 1 as [| c sp Hc _ IH]; simpl; [done | by rewrite Hc]. Qed.

Lemma lstrip_app l sp :
  lstrip l ≠ [] → lstrip (l ++ sp) = lstrip l ++ sp.
Proof.
  induction l as [| c l IH]; simpl; [done |].
  destruct (is_space c); [apply IH | done].
Qed.

Lemma lstrip_all_spaces l :
  lstrip l = [] → Forall (fun c => is_space c = true) l.
Proof.
  induction l as [| c l IH]; simpl; [constructor |].
  destruct (is_space c) eqn:E; [| done]. intros H. constructor; auto.
Qed.

Lemma chars_strip s : chars (strip s) = rev (lstrip (rev (lstrip (chars s)))).
Proof. unfold strip. by rewrite chars_str. Qed.

(** A stripped text neither starts nor ends with white space. *)
Lemma strip_ends s :
  (∀ c, head (chars (strip s)) = Some c → is_space c = false)
  ∧ (∀ c, head (rev (chars (strip s))) = Some c → is_space c = false).
Proof.
  rewrite chars_strip, rev_involutive. split; [| apply lstrip_head].
  intros c Hc.
  destruct (lstrip_decomp (rev (lstrip (chars s)))) as (sp & Hl & _).
  apply (f_equal (@rev ascii)) in Hl. rewrite rev_involutive, rev_app_distr in Hl.
  apply (lstrip_head (chars s)). rewrite Hl.
  destruct (rev (lstrip (rev (lstrip (chars s))))); [done | exact Hc].
Qed.

Lemma strip_fixpoint s :
  (∀ c, head (chars s) = Some c → is_space c = false) →
  (∀ c, head (rev (chars s)) = Some c → is_space c = false) →
  strip s = s.
Proof.
  intros H1 H2. apply chars_inj. rewrite chars_strip.
  rewrite (lstrip_clean (chars s)) by done.
  rewrite (lstrip_clean (rev (chars s))) by done.
  apply rev_involutive.
Qed.

Lemma strip_strip s : strip (strip s) = strip s.
Proof. destruct (strip_ends s). by apply strip_fixpoint. Qed.

Lemma lstrip_fmap (f : ascii → ascii) l :
  (∀ c, is_space (f c) = is_space c) → lstrip (f <$> l) = f <$> lstrip l.
Proof.
  intros Hf. induction l as [| c l IH]; simpl; [done |].
  rewrite Hf. by destruct (is_space c).
Qed.

Lemma strip_lower s : strip (lower s) = lower (strip s).
Proof.
  apply chars_inj. rewrite chars_lower, !chars_strip, chars_lower.
  rewrite lstrip_fmap by apply is_space_lower_char.
  change (lower_char <$> lstrip (chars s)) with (map lower_char (lstrip (chars s))).
  rewrite <- map_rev.
  change (map lower_char ?l) with (lower_char <$> l).
  rewrite lstrip_fmap by apply is_space_lower_char.
  change (lower_char <$> ?l) with (map lower_char l).
  by rewrite map_rev.
Qed.

(** White space at the end of a text does not change what is left after
    stripping. *)
Lemma strip_trailing_space s sp :
  Forall (fun c => is_space c = true) sp → strip (s ++ str sp) = strip s.
Proof.
  intros Hsp. apply chars_inj. rewrite !chars_strip, chars_app, chars_str.
  destruct (lstrip (chars s)) as [| c l] eqn:E.
  - apply lstrip_all_spaces in E.
    rewrite <- (app_nil_r (chars s ++ sp)), lstrip_spaces; [done |].
    by apply Forall_app.
  - rewrite lstrip_app by (by rewrite E). rewrite E.
    rewrite rev_app_distr, lstrip_spaces; [done |].
    apply Forall_forall. intros x Hx%list_elem_of_In%in_rev%list_elem_of_In.
    by eapply Forall_forall in Hsp.
Qed.

End CaseAndStrip.

(** ** More on the phonetic indexer *)

Section SoundexShape.

Lemma string_length_chars s : String.length s = length (chars s).
Proof. induction s as [| c s IH]; simpl; [done | by rewrite IH]. Qed.

(** The loop only appends: the first entry stays. *)
Lemma soundex_list_head first rest :
  ∃ tl, soundex_list first rest = first :: tl.
Proof.
  unfold soundex_list.
  assert (H : ∀ code, ∃ tl, foldl soundex_step (first :: code) rest = first :: tl).
  { induction rest as [| c rest IH]; intros code; simpl; [eauto |].
    unfold soundex_step at 2. case_bool_decide; [apply IH |].
    apply (IH (code ++ [soundex_digit c])). }
  apply H.
Qed.

(** X1. The code of an ASCII word is always four characters long; a
    ['0'] in it is padding, so every later character is ['0'] too; and
    unless the word starts with the character ['0'], the code starts
    with the upper-cased first character of the word. *)
Theorem soundex_shape (word code : string) :
  isascii word = true →
  soundex word = Ok code →
  String.length code = 4
  ∧ (∀ i j : nat, chars code !! i = Some "0"%char → (i ≤ j)%nat → (j < 4)%nat →
                  chars code !! j = Some "0"%char)
  ∧ (∀ first rest, word = String first rest → upper_char first ≠ "0"%char →
       chars code !! 0%nat = Some (upper_char first)).
Proof.
  intros _. unfold soundex, soundex_chars. rewrite chars_upper.
  destruct (chars word) as [| c0 cs] eqn:Ew; simpl; [done |].
  intros [= <-]. rewrite string_length_chars, chars_str. unfold pad4.
  match goal with
  | |- context [strip_zeros ?l] => remember (strip_zeros l) as body eqn:Ebody
  end.
  assert (Hbody : ∀ i : nat, body !! i ≠ Some "0"%char).
  { intros i Hi. apply list_elem_of_lookup_2 in Hi.
    rewrite Ebody in Hi. unfold strip_zeros in Hi.
    apply list_elem_of_filter in Hi as [Hne _]. done. }
  split; [| split].
  - rewrite length_take, length_app.
    change (length (chars "0000")) with 4%nat. lia.
  - intros i j Hi Hij Hj.
    assert (Hlen : (length body ≤ i)%nat).
    { destruct (decide (i < length body)%nat) as [Hlt |]; [| lia].
      rewrite lookup_take_lt in Hi by lia.
      rewrite lookup_app_l in Hi by lia. by apply Hbody in Hi. }
    rewrite lookup_take_lt by lia. rewrite lookup_app_r by lia.
    assert (Hk : (j - length body < 4)%nat) by lia.
    destruct (j - length body) as [| [| [| [| k]]]]; simpl; try done; lia.
  - intros first rest -> Hfirst. simpl in Ew. injection Ew as <- <-.
    destruct (soundex_list_head (upper_char first) (upper_char <$> chars rest))
      as [tl Htl].
    rewrite lookup_take_lt by lia.
    change (list_fmap ascii ascii upper_char (chars rest))
      with (upper_char <$> chars rest) in Ebody.
    rewrite Ebody, Htl. unfold strip_zeros.
    rewrite filter_cons_True by done. done.
Qed.

Lemma soundex_shape_witness :
  isascii "Robert" = true
  ∧ soundex "Robert" = Ok "R163" ∧ String.length "R163" = 4.
Proof.
  assert (Ha : isascii "Robert" = true) by reflexivity.
  assert (H : soundex "Robert" = Ok "R163") by reflexivity.
  split; [exact Ha |]. split; [exact H |].
  exact (proj1 (soundex_shape "Robert" "R163" Ha H)).
Defined.

(** A word that starts with the character ['0'] loses it. *)
Example soundex_leading_zero : soundex "0b" = Ok "1000".
Proof. reflexivity. Qed.

Lemma soundex_lower word : soundex (lower word) = soundex word.
Proof. unfold soundex. by rewrite upper_lower. Qed.

(** X2. On ASCII words the code does not depend on the case of the
    letters: a word, its lower-case form and its upper-case form have
    the same code, and two words that differ only in case have the same
    code. *)
Theorem soundex_case_insensitive (word word' : string) :
  isascii word = true →
  soundex (lower word) = soundex word
  ∧ soundex (upper word) = soundex word
  ∧ (isascii word' = true → lower word = lower word' →
     soundex word = soundex word').
Proof.
  intros _. split; [apply soundex_lower |]. split.
  - unfold soundex. by rewrite upper_upper.
  - intros _ E. by rewrite <- (soundex_lower word), E, soundex_lower.
Qed.

Lemma soundex_case_insensitive_witness :
  isascii "RoBeRt" = true
  ∧ isascii "rObErT" = true
  ∧ lower "RoBeRt" = lower "rObErT" ∧ soundex "RoBeRt" = soundex "rObErT".
Proof.
  assert (H1 : isascii "RoBeRt" = true) by reflexivity.
  assert (H2 : isascii "rObErT" = true) by reflexivity.
  assert (H : lower "RoBeRt" = lower "rObErT") by reflexivity.
  split; [exact H1 |]. split; [exact H2 |]. split; [exact H |].
  exact (proj2 (proj2 (soundex_case_insensitive "RoBeRt" "rObErT" H1)) H2 H).
Defined.

End SoundexShape.

(** ** More on the lexicon store *)

Section LoadFacts.

(** Which words a file gives. *)
Lemma elem_of_load_words (lines : list string) x :
  x ∈ load_words_from_file (Some lines)
  ↔ ∃ line, line ∈ lines ∧ strip line ≠ ""
            ∧ startswith_hash (strip line) = false ∧ x = lower (strip line).
Proof.
  unfold load_words_from_file.
  assert (H : ∀ (acc : gset string),
    x ∈ foldl (fun words line =>
                 let word := strip line in
                 if negb (bool_decide (word = "")) && negb (startswith_hash word)
                 then words ∪ {[ lower word ]} else words) acc lines
    ↔ x ∈ acc ∨ ∃ line, line ∈ lines ∧ strip line ≠ ""
                        ∧ startswith_hash (strip line) = false
                        ∧ x = lower (strip line)).
  { induction lines as [| l lines IH]; intros acc; simpl.
    - split; [by left | intros [? | (? & ?%elem_of_nil & _)]; done].
    - rewrite IH. clear IH.
      destruct (bool_decide (strip l = "")) eqn:E1; simpl.
      { apply bool_decide_eq_true in E1. split.
        - intros [? | (line & ? & ?)]; [by left | right; exists line; set_solver].
        - intros [? | (line & [-> | ?]%elem_of_cons & Hne & ?)];
            [by left | done | right; eauto]. }
      apply bool_decide_eq_false in E1.
      destruct (startswith_hash (strip l)) eqn:E2; simpl.
      { split.
        - intros [? | (line & ? & ?)]; [by left | right; exists line; set_solver].
        - intros [? | (line & [-> | ?]%elem_of_cons & ? & Hh & ?)];
            [by left | congruence | right; eauto]. }
      split.
      + intros [[? | ->%elem_of_singleton]%elem_of_union | (line & ? & ?)].
        * by left.
        * right. exists l. set_solver.
        * right. exists line. set_solver.
      + intros [? | (line & [-> | ?]%elem_of_cons & ? & ? & ->)].
        * left. set_solver.
        * left. set_solver.
        * right. eauto 6. }
  rewrite H. set_solver.
Qed.

(** X3. Every word that [load_words_from_file] returns is normalised: it
    is not empty, it is in lower case, it has no white space around it
    and it does not start with the comment sign. *)
Theorem loaded_words_normalised (file : option (list string)) (w : string) :
  w ∈ load_words_from_file file →
  w ≠ "" ∧ lower w = w ∧ strip w = w ∧ startswith_hash w = false.
Proof.
  destruct file as [lines |]; [| by intros ?%not_elem_of_empty].
  intros (line & _ & Hne & Hh & ->)%elem_of_load_words.
  split; [by apply lower_nonempty |]. split; [apply lower_lower |].
  split; [by rewrite strip_lower, strip_strip |].
  by rewrite startswith_hash_lower.
Qed.

Lemma loaded_words_normalised_witness :
  "dog" ∈ load_words_from_file (Some ["  DoG  "; "# cat"])
  ∧ strip "dog" = "dog".
Proof.
  assert (H : "dog" ∈ load_words_from_file (Some ["  DoG  "; "# cat"])).
  { apply (bool_decide_unpack _). vm_compute. exact I. }
  split; [exact H |].
  exact (proj1 (proj2 (proj2 (loaded_words_normalised _ "dog" H)))).
Defined.

(** X4. A load is a function of the two files alone: the lexicon that was
    active before has no influence, the Soundex mapping is always
    rebuilt, and loading the same files again changes nothing. *)
Theorem load_ignores_old_state (banned_file exceptions_file : option (list string))
    (old old' : lexicon) :
  load_banned_words banned_file exceptions_file old
  = load_banned_words banned_file exceptions_file old'
  ∧ create_soundex_codes
      (banned_words (load_banned_words banned_file exceptions_file old))
    = Ok (soundex_codes (load_banned_words banned_file exceptions_file old))
  ∧ load_banned_words banned_file exceptions_file
      (load_banned_words banned_file exceptions_file old)
    = load_banned_words banned_file exceptions_file old.
Proof.
  assert (H : ∀ o, ∃ m,
    create_soundex_codes (load_words_from_file banned_file
                          ∖ load_words_from_file exceptions_file) = Ok m
    ∧ load_banned_words banned_file exceptions_file o
      = Lexicon (load_words_from_file banned_file
                 ∖ load_words_from_file exceptions_file)
                (load_words_from_file exceptions_file) m).
  { intros o. unfold load_banned_words.
    destruct (create_soundex_codes_ok
                (load_words_from_file banned_file
                 ∖ load_words_from_file exceptions_file)) as (m & Hm & _).
    { intros w [Hw _]%elem_of_difference. by eapply load_words_nonempty. }
    exists m. by rewrite Hm. }
  destruct (H old) as (m & Hm & E). destruct (H old') as (m' & Hm' & E').
  destruct (H (load_banned_words banned_file exceptions_file old))
    as (m'' & Hm'' & E'').
  rewrite E'', E, E'. simpl. split; [congruence |]. split; [done | congruence].
Qed.

(** X5. Without a banned-words file the lexicon and the index are empty;
    on tokens of the tokenizer the verdict is then the Bayesian one. *)
Theorem missing_banned_file (tokenize : string → list string)
    (stem : string → string) (exceptions_file : option (list string))
    (old : lexicon) (m : classifier) (text : string) :
  let l := load_banned_words None exceptions_file old in
  banned_words l = ∅
  ∧ soundex_codes l = ∅
  ∧ (nonempty_tokens (tokenize text) →
     check_message tokenize stem l m text
     = (p ←r calculate_spam_probability m (tokenize text);;
        Ok (threshold <? p)%float)).
Proof.
  intros l.
  destruct (load_banned_words_spec None exceptions_file old) as (Hb & _ & Hd & _).
  fold l in Hb, Hd. simpl in Hb.
  assert (Hb' : banned_words l = ∅) by (rewrite Hb; set_solver).
  assert (Hc : soundex_codes l = ∅).
  { apply dom_empty_inv_L. by rewrite Hd. }
  split; [done |]. split; [done |]. intros Hne.
  destruct (check_tokens_cases stem l m (tokenize text) Hne) as (_ & Hbayes & _).
  apply Hbayes.
  - intros (t & _ & Ht). rewrite Hb' in Ht. by apply not_elem_of_empty in Ht.
  - intros (t & c & w & _ & _ & Hw). rewrite Hc in Hw. by rewrite lookup_empty in Hw.
Qed.

Lemma missing_banned_file_witness :
  nonempty_tokens (words "bad dog")
  ∧ check_message words plural_stem (load_banned_words None None no_lexicon)
      empty_model "bad dog" = Ok false.
Proof.
  assert (H : nonempty_tokens (words "bad dog")) by apply words_nonempty.
  split; [exact H |].
  rewrite (proj2 (proj2 (missing_banned_file words plural_stem None no_lexicon
                           empty_model "bad dog")) H).
  reflexivity.
Defined.

(** X6. A banned word always trips the pipeline when it occurs in a
    message as an ASCII token in any letter case: if the lexicon check
    misses it because its stem is another word, the phonetic check finds
    its own code. *)
Theorem banned_word_always_flagged (tokenize : string → list string)
    (stem : string → string) (banned_file exceptions_file : option (list string))
    (old : lexicon) (m : classifier) (text t : string) :
  let l := load_banned_words banned_file exceptions_file old in
  nonempty_tokens (tokenize text) →
  t ∈ tokenize text →
  isascii t = true →
  lower t ∈ banned_words l →
  check_message tokenize stem l m text = Ok true.
Proof.
  intros l Hne Ht _ Hban.
  destruct (load_banned_words_spec banned_file exceptions_file old)
    as (Hb & _ & _ & Hcodes). fold l in Hb, Hcodes.
  assert (Hw : lower t ≠ "").
  { rewrite Hb in Hban. apply elem_of_difference in Hban as [Hban _].
    by eapply load_words_nonempty. }
  destruct (soundex_nonempty _ Hw) as [code Hcode].
  assert (Hphon : phonetic_fires l (tokenize text)).
  { exists t, code, (lower t). split; [done |]. split.
    - by rewrite <- soundex_lower.
    - by apply Hcodes. }
  unfold check_message.
  destruct (lexicon_match stem l (tokenize text)) eqn:Hl.
  - by apply lexicon_hit_wins, lexicon_match_fires.
  - destruct (check_tokens_cases stem l m _ Hne) as (Hcase & _ & _).
    apply Hcase; [| done]. rewrite <- lexicon_match_fires. congruence.
Qed.

Lemma banned_word_always_flagged_witness :
  nonempty_tokens (words "my CATS")
  ∧ "CATS" ∈ words "my CATS"
  ∧ isascii "CATS" = true
  ∧ lower "CATS" ∈ banned_words pets_lexicon
  ∧ lexicon_match plural_stem pets_lexicon (words "my CATS") = false
  ∧ check_message words plural_stem pets_lexicon empty_model "my CATS" = Ok true.
Proof.
  assert (H1 : nonempty_tokens (words "my CATS")) by apply words_nonempty.
  assert (H2 : "CATS" ∈ words "my CATS").
  { apply (bool_decide_unpack _). vm_compute. exact I. }
  assert (Ha : isascii "CATS" = true) by reflexivity.
  assert (H3 : lower "CATS" ∈ banned_words pets_lexicon).
  { apply (bool_decide_unpack _). vm_compute. exact I. }
  split; [exact H1 |]. split; [exact H2 |]. split; [exact Ha |]. split; [exact H3 |].
  split; [vm_compute; reflexivity |].
  exact (banned_word_always_flagged words plural_stem
           (Some ["cats"; "# pets"; " Dog "; "fish"]) (Some ["fish"]) no_lexicon
           empty_model "my CATS" "CATS" H1 H2 Ha H3).
Defined.

End LoadFacts.

(** ** Exceptions of the classifier *)

Section ErrorFacts.

Lemma likelihoods_raises m tokens s h :
  tokens ≠ [] → (total_spam m + 2 = 0 ∨ total_ham m + 2 = 0)%Z →
  likelihoods m tokens s h = Raise ZeroDivisionError.
Proof.
  destruct tokens as [| t ts]; [done |]. intros _ Hz. simpl. unfold true_div.
  destruct (Z.eqb_spec (total_spam m + 2)%Z 0%Z); [done |].
  destruct (Z.eqb_spec (total_ham m + 2)%Z 0%Z); [done |]. lia.
Qed.

Lemma likelihoods_returns m tokens : ∀ s h,
  (total_spam m + 2 ≠ 0)%Z → (total_ham m + 2 ≠ 0)%Z →
  ∃ lh, likelihoods m tokens s h = Ok lh.
Proof.
  induction tokens as [| t ts IH]; intros s h Hs Hh; simpl; [eauto |].
  unfold true_div.
  destruct (Z.eqb_spec (total_spam m + 2)%Z 0%Z); [done |].
  destruct (Z.eqb_spec (total_ham m + 2)%Z 0%Z); [done |].
  simpl. by apply IH.
Qed.

Lemma score_raises_zero m tokens e :
  calculate_spam_probability m tokens = Raise e →
  e = ZeroDivisionError ∧ tokens ≠ []
  ∧ (total_spam m + 2 = 0 ∨ total_ham m + 2 = 0)%Z.
Proof.
  unfold calculate_spam_probability.
  destruct tokens as [| t ts]; [done |].
  destruct (Z.eq_dec (total_spam m + 2)%Z 0%Z) as [Hs | Hs];
    [| destruct (Z.eq_dec (total_ham m + 2)%Z 0%Z) as [Hh | Hh]].
  - rewrite likelihoods_raises by auto. intros [= <-]. auto.
  - rewrite likelihoods_raises by auto. intros [= <-]. auto.
  - destruct (likelihoods_returns m (t :: ts) 1 1 Hs Hh) as [[sp hp] ->].
    simpl. by destruct (sp + hp =? 0)%float.
Qed.

(** X7. On a model whose counts and totals convert to binary64 exactly,
    [calculate_spam_probability] raises exactly when there is at least
    one token and one of the denominators [total + 2] is zero, and the
    exception is then the division by zero of the first token. *)
Theorem score_raises_iff (m : classifier) (tokens : list string) (e : exn) :
  exact_counts m →
  calculate_spam_probability m tokens = Raise e
  ↔ e = ZeroDivisionError ∧ tokens ≠ []
    ∧ (total_spam m + 2 = 0 ∨ total_ham m + 2 = 0)%Z.
Proof.
  intros _. split; [apply score_raises_zero |].
  intros (-> & Hne & Hz). unfold calculate_spam_probability.
  by rewrite likelihoods_raises.
Qed.

Lemma score_raises_iff_witness :
  exact_counts (Classifier ∅ ∅ 0 (-2))
  ∧ calculate_spam_probability (Classifier ∅ ∅ 0 (-2)) ["hello"]
    = Raise ZeroDivisionError.
Proof.
  assert (Hm : exact_counts (Classifier ∅ ∅ 0 (-2))).
  { unfold exact_counts, exact_int. simpl.
    split; [| split; [| split]]; [| | lia | lia];
      by intros t c ?%lookup_empty_Some. }
  split; [exact Hm |].
  apply (proj2 (score_raises_iff (Classifier ∅ ∅ 0 (-2)) ["hello"]
                  ZeroDivisionError Hm)).
  split; [reflexivity |]. split; [discriminate |]. left. reflexivity.
Defined.

Lemma phonetic_match_raises l tokens e :
  phonetic_match l tokens = Raise e → e = IndexError ∧ "" ∈ tokens.
Proof.
  induction tokens as [| t ts IH]; simpl; [done |].
  destruct (soundex t) as [code | e'] eqn:E; simpl.
  - destruct (code_known l code); [done |].
    intros [-> Hin]%IH. split; [done | by right].
  - intros [= <-]. apply soundex_raises in E as Ht. subst t.
    split; [| by left]. vm_compute in E. congruence.
Qed.

(** X8. On a model whose counts and totals convert to binary64 exactly:
    when [check_message] raises, the lexicon check found nothing and
    either an empty token reached [soundex] (IndexError) or the score
    divided by zero (ZeroDivisionError); [on_message] then leaves the cog
    as it was and asks for nothing. *)
Theorem check_message_raises (tokenize : string → list string)
    (stem : string → string) (now : Z) (msg : message) (c : cog) (e : exn) :
  let tokens := tokenize (lower (msg_content msg)) in
  exact_counts (model c) →
  check_message tokenize stem (lex c) (model c) (lower (msg_content msg)) = Raise e →
  ¬ lexicon_fires stem (lex c) tokens
  ∧ ((e = IndexError ∧ "" ∈ tokens)
     ∨ (e = ZeroDivisionError ∧ tokens ≠ []
        ∧ (total_spam (model c) + 2 = 0 ∨ total_ham (model c) + 2 = 0)%Z))
  ∧ on_message tokenize stem now msg c = (c, []).
Proof.
  intros tokens _ Hr.
  assert (Hon : on_message tokenize stem now msg c = (c, [])).
  { unfold on_message. rewrite Hr. by destruct (author_bot msg). }
  unfold check_message, check_tokens in Hr. fold tokens in Hr.
  destruct (lexicon_match stem (lex c) tokens) eqn:Hlex; [done |].
  split; [rewrite <- lexicon_match_fires; congruence |]. split; [| done].
  destruct (phonetic_match (lex c) tokens) as [[] | e'] eqn:Hp; simpl in Hr.
  - done.
  - right. destruct (calculate_spam_probability (model c) tokens) as [p |] eqn:Hs;
      simpl in Hr; [by destruct (threshold <? p)%float |].
    injection Hr as ->. by apply score_raises_zero.
  - left. injection Hr as ->. by eapply phonetic_match_raises.
Qed.

End ErrorFacts.

(** ** More on the sweep *)

Section SweepExact.
Variable tokenize : string → list string.
Variable stem : string → string.

Lemma filter_ext_in {A} (P Q : A → Prop) `{∀ x, Decision (P x)}
    `{∀ x, Decision (Q x)} (l : list A) :
  (∀ x, x ∈ l → (P x ↔ Q x)) → filter P l = filter Q l.
Proof.
  induction l as [| a l IH]; intros Hpq; [done |].
  rewrite !filter_cons.
  assert (Ha : P a ↔ Q a) by (apply Hpq; by left).
  rewrite IH by (intros x Hx; apply Hpq; by right).
  destruct (decide (P a)), (decide (Q a)); tauto.
Qed.

Lemma filter_all {A} (P : A → Prop) `{∀ x, Decision (P x)} (l : list A) :
  (∀ x, x ∈ l → P x) → filter P l = l.
Proof.
  induction l as [| a l IH]; intros Hp; [done |].
  rewrite filter_cons_True by (apply Hp; by left).
  f_equal. apply IH. intros x Hx. apply Hp. by right.
Qed.

Lemma filter_none {A} (P : A → Prop) `{∀ x, Decision (P x)} (l : list A) :
  (∀ x, x ∈ l → ¬ P x) → filter P l = [].
Proof.
  induction l as [| a l IH]; intros Hp; [done |].
  rewrite filter_cons_False by (apply Hp; by left).
  apply IH. intros x Hx. apply Hp. by right.
Qed.

Lemma sweep_rows_rows env sel : ∀ d log,
  rows (sweep_rows env sel d log).1
  = filter (fun r => infraction_id r ∉ infraction_id <$> sel) (rows d).
Proof.
  induction sel as [| r sel IH]; intros d log; simpl.
  - symmetry. apply filter_all. intros x _. set_solver.
  - rewrite IH. simpl. rewrite list_filter_filter.
    apply filter_ext_in. intros x _. set_solver.
Qed.

(** X9. With the primary key in force, a sweep leaves in the table
    exactly the rows that are not yet due, in their order, keeps the
    AUTOINCREMENT counter, and logs one attempt for each due row in table
    order. *)
Theorem sweep_keeps_exactly_not_due (now : Z) (env : row → attempt) (d : db) :
  wf_db d →
  delete_expired_messages now env d
  = (Db (filter (fun r => (now < deletion_time r)%Z) (rows d)) (next_id d),
     (fun r => (infraction_id r, env r))
       <$> filter (fun r => (deletion_time r ≤ now)%Z) (rows d)).
Proof.
  intros [Hnd _].
  pose proof (sweep_log now env d) as Hlog.
  pose proof (sweep_store now env d) as (Hn & _ & _).
  destruct (delete_expired_messages now env d) as [d' log] eqn:E.
  simpl in *. f_equal; [| done].
  destruct d' as [rows' next']. simpl in *. f_equal; [| done].
  change rows' with (rows (Db rows' next')).
  change (Db rows' next') with ((Db rows' next', log).1). rewrite <- E.
  unfold delete_expired_messages. rewrite sweep_rows_rows.
  apply filter_ext_in. intros r Hr. split.
  - intros Hid. destruct (Z.lt_ge_cases now (deletion_time r)) as [| Hdue]; [done |].
    exfalso. apply Hid, list_elem_of_fmap. exists r.
    split; [done | by apply select_due_spec].
  - intros Hlater (r' & E' & [Hdue Hr']%select_due_spec)%list_elem_of_fmap.
    assert (r = r') by (by eapply same_id_same_row). subst. lia.
Qed.

Lemma sweep_keeps_exactly_not_due_witness :
  wf_db (Db [Row 1 10 20 30 0 5 "a"; Row 2 11 20 31 0 90 "b"; Row 4 12 21 30 0 7 "c"] 5)
  ∧ delete_expired_messages 60 (always NotFound)
      (Db [Row 1 10 20 30 0 5 "a"; Row 2 11 20 31 0 90 "b"; Row 4 12 21 30 0 7 "c"] 5)
    = (Db [Row 2 11 20 31 0 90 "b"] 5, [(1%Z, NotFound); (4%Z, NotFound)]).
Proof.
  assert (H : wf_db (Db [Row 1 10 20 30 0 5 "a"; Row 2 11 20 31 0 90 "b";
                         Row 4 12 21 30 0 7 "c"] 5)).
  { split; simpl.
    - repeat (apply NoDup_cons; split; [set_solver |]). apply NoDup_nil_2.
    - repeat constructor; simpl; lia. }
  split; [exact H |].
  rewrite (sweep_keeps_exactly_not_due 60 (always NotFound) _ H). reflexivity.
Defined.

(** Without distinct ids the deletion by id takes more than the due row. *)
Example sweep_shared_id :
  (delete_expired_messages 60 (always Deleted)
     (Db [Row 1 10 20 30 0 5 "a"; Row 1 11 20 31 0 90 "b"] 2)).1 = Db [] 2.
Proof. reflexivity. Qed.

(** X10. A second sweep that reads the same or an earlier clock finds
    nothing due: it attempts nothing and leaves the table as it is. *)
Theorem sweep_again_does_nothing (now now' : Z) (env env' : row → attempt) (d : db) :
  (now' ≤ now)%Z →
  delete_expired_messages now' env' (delete_expired_messages now env d).1
  = ((delete_expired_messages now env d).1, []).
Proof.
  intros Hle. unfold delete_expired_messages at 1.
  assert (Hsel : select_due now' (delete_expired_messages now env d).1 = []).
  { unfold select_due. apply filter_none. intros r Hr%sweep_clears. lia. }
  by rewrite Hsel.
Qed.

Lemma sweep_again_does_nothing_witness :
  (30 ≤ 60)%Z
  ∧ delete_expired_messages 30 (always Deleted)
      (delete_expired_messages 60 (always OtherError)
         (Db [Row 1 10 20 30 0 5 "a"; Row 2 11 20 31 0 90 "b"] 3)).1
    = (Db [Row 2 11 20 31 0 90 "b"] 3, []).
Proof.
  assert (H : (30 ≤ 60)%Z) by lia.
  split; [exact H |].
  rewrite (sweep_again_does_nothing 60 30 (always OtherError) (always Deleted) _ H).
  reflexivity.
Defined.

(** X11. The row that [on_message] stores for a flagged message is left
    alone by every sweep that reads a clock before the message's deadline
    [now + delay], and the first sweep at or after the deadline attempts
    it once, with the platform's answer for that row, and removes it. *)
Theorem flagged_message_swept_at_deadline (now now1 : Z) (msg : message) (c : cog)
    (env : row → attempt) :
  wf_db (store c) →
  author_bot msg = false →
  check_message tokenize stem (lex c) (model c) (lower (msg_content msg)) = Ok true →
  let r := Row (next_id (store c)) (msg_id msg) (msg_channel msg) (msg_author msg)
               (created_at msg) (now + delay c) (msg_content msg) in
  let res := delete_expired_messages now1 env
               (store (on_message tokenize stem now msg c).1) in
  r ∈ rows (store (on_message tokenize stem now msg c).1)
  ∧ ((now1 < now + delay c)%Z →
     r ∈ rows res.1 ∧ (∀ a, (infraction_id r, a) ∉ res.2))
  ∧ ((now + delay c ≤ now1)%Z →
     (r ∉ rows res.1) ∧ (∀ a, (infraction_id r, a) ∈ res.2 ↔ a = env r)).
Proof.
  intros Hwf Hbot Hchk r res.
  assert (Hst : store (on_message tokenize stem now msg c).1
                = store_infraction (store c) msg (now + delay c)).
  { unfold on_message. by rewrite Hbot, Hchk. }
  assert (Hwf1 : wf_db (store (on_message tokenize stem now msg c).1)).
  { rewrite Hst. by apply wf_store_infraction. }
  assert (Hin : r ∈ rows (store (on_message tokenize stem now msg c).1)).
  { rewrite Hst. unfold store_infraction. simpl. set_solver. }
  assert (Hsame : ∀ r', r' ∈ select_due now1 (store (on_message tokenize stem now msg c).1) →
                        infraction_id r' = infraction_id r → r' = r).
  { intros r' [_ Hr']%select_due_spec E.
    destruct Hwf1 as [Hnd _]. by eapply same_id_same_row. }
  split; [done |]. unfold res. split.
  - intros Hearly. split.
    + apply sweep_store. split; [done |].
      intros (r' & E & Hr')%list_elem_of_fmap.
      assert (r' = r) by (by apply Hsame). subst r'.
      apply select_due_spec in Hr' as [Hdue _]. simpl in Hdue. lia.
    + intros a. rewrite sweep_log.
      intros (r' & [= E _] & Hr')%list_elem_of_fmap.
      assert (r' = r) by (by apply Hsame). subst r'.
      apply select_due_spec in Hr' as [Hdue _]. simpl in Hdue. lia.
  - intros Hdue.
    assert (Hsel : r ∈ select_due now1 (store (on_message tokenize stem now msg c).1)).
    { by apply select_due_spec. }
    split.
    + intros [_ Hid]%sweep_store. apply Hid, list_elem_of_fmap. by exists r.
    + intros a. rewrite sweep_log. split.
      * intros (r' & [= E Ha] & Hr')%list_elem_of_fmap.
        assert (r' = r) by (by apply Hsame). by subst.
      * intros ->. apply list_elem_of_fmap. by exists r.
Qed.

End SweepExact.

Section SweepSamples.

Lemma flagged_message_swept_at_deadline_witness :
  wf_db (store sample_cog)
  ∧ author_bot sample_message = false
  ∧ check_message words plural_stem (lex sample_cog) (model sample_cog)
      (lower (msg_content sample_message)) = Ok true
  ∧ (5000 + delay sample_cog ≤ 26600)%Z
  ∧ Row 1 10 20 30 1000 26600 "Bad Dog"
      ∉ rows (delete_expired_messages 26600 (always Forbidden)
                (store (on_message words plural_stem 5000 sample_message
                          sample_cog).1)).1.
Proof.
  assert (H1 : wf_db (store sample_cog)) by (split; simpl; constructor).
  assert (H2 : author_bot sample_message = false) by reflexivity.
  assert (H3 : check_message words plural_stem (lex sample_cog) (model sample_cog)
                 (lower (msg_content sample_message)) = Ok true)
    by (vm_compute; reflexivity).
  assert (H4 : (5000 + delay sample_cog ≤ 26600)%Z) by (simpl; lia).
  split; [exact H1 |]. split; [exact H2 |]. split; [exact H3 |]. split; [exact H4 |].
  exact (proj1 (proj2 (proj2 (flagged_message_swept_at_deadline words plural_stem
                                5000 26600 sample_message sample_cog
                                (always Forbidden) H1 H2 H3)) H4)).
Defined.

Lemma check_message_raises_witness :
  exact_counts (Classifier ∅ ∅ (-2) (-2))
  ∧ check_message words plural_stem pets_lexicon (Classifier ∅ ∅ (-2) (-2))
    (lower "hello") = Raise ZeroDivisionError
  ∧ on_message words plural_stem 0
      (Message 10 20 30 false 1000 "hello" (Some "Pets"))
      (Cog pets_lexicon (Classifier ∅ ∅ (-2) (-2)) 21600 None (Db [] 1))
    = (Cog pets_lexicon (Classifier ∅ ∅ (-2) (-2)) 21600 None (Db [] 1), []).
Proof.
  assert (Hm : exact_counts (Classifier ∅ ∅ (-2) (-2))).
  { unfold exact_counts, exact_int. simpl.
    split; [| split; [| split]]; [| | lia | lia];
      by intros t c ?%lookup_empty_Some. }
  assert (H : check_message words plural_stem pets_lexicon (Classifier ∅ ∅ (-2) (-2))
                (lower "hello") = Raise ZeroDivisionError) by (vm_compute; reflexivity).
  split; [exact Hm |]. split; [exact H |].
  exact (proj2 (proj2 (check_message_raises words plural_stem 0
           (Message 10 20 30 false 1000 "hello" (Some "Pets"))
           (Cog pets_lexicon (Classifier ∅ ∅ (-2) (-2)) 21600 None (Db [] 1))
           ZeroDivisionError Hm H))).
Defined.

End SweepSamples.

(** ** Lexicon files: lines, rewriting and the commands *)

Section FileFacts.

Local Notation "'nl'" := ("010"%char).

Lemma file_lines_from_line w : ∀ cur rest,
  nl ∉ w →
  file_lines_from cur (w ++ nl :: rest)
  = str (rev cur ++ w ++ [nl]) :: file_lines_from [] rest.
Proof.
  induction w as [| c w IH]; intros cur rest Hw; simpl.
  - done.
  - rewrite bool_decide_eq_false_2 by set_solver.
    rewrite IH by set_solver. simpl. by rewrite <- app_assoc.
Qed.

Lemma file_lines_from_app l : ∀ cur rest,
  file_lines_from cur (l ++ nl :: rest)
  = file_lines_from cur (l ++ [nl]) ++ file_lines_from [] rest.
Proof.
  induction l as [| c l IH]; intros cur rest; simpl; [done |].
  case_bool_decide; [by rewrite IH | apply IH].
Qed.

End FileFacts.

(** ** The administrative commands *)

Section CommandFacts.

Lemma reload_sets fs old :
  banned_words (reload fs old)
  = load_words_from_file (file_lines <$> banned_words_txt fs)
    ∖ load_words_from_file (file_lines <$> exceptions_txt fs)
  ∧ exceptions (reload fs old)
    = load_words_from_file (file_lines <$> exceptions_txt fs).
Proof.
  unfold reload.
  destruct (load_banned_words_spec (file_lines <$> banned_words_txt fs)
              (file_lines <$> exceptions_txt fs) old) as (Hb & He & _).
  done.
Qed.

(** X12. [remove_banned_word] never removes a word. Whatever the word
    and the files, the command leaves both files and the lexicon as they
    were and never answers that the word was removed. A missing file is
    reported; on an ASCII file and word, a word that is not listed
    (compared in lower case) is reported, and for a listed word the
    command fails at [await f.seek(0)], before anything is written, and
    answers with its error message. *)
Theorem remove_banned_word_never_removes (word : string) (fs : lexicon_files)
    (old : lexicon) :
  (remove_banned_word word fs old).1 = (fs, old)
  ∧ (remove_banned_word word fs old).2 ≠ Removed
  ∧ (banned_words_txt fs = None →
     (remove_banned_word word fs old).2 = FileMissing)
  ∧ (∀ content, banned_words_txt fs = Some content →
       isascii content = true → isascii word = true →
       (lower word ∈ lower <$> listed_words content →
          (remove_banned_word word fs old).2 = CommandFailed)
       ∧ (lower word ∉ lower <$> listed_words content →
          (remove_banned_word word fs old).2 = NotListed)).
Proof.
  unfold remove_banned_word.
  destruct (banned_words_txt fs) as [content |]; [| done].
  case_bool_decide as Hin; cbn [await seek fst snd].
  - split; [done |]. split; [done |]. split; [done |].
    intros c [= <-] _ _. split; [intros Hl; destruct (Hin Hl) | done].
  - split; [done |]. split; [done |]. split; [done |].
    intros c [= <-] _ _. split; [done |]. intros Hnot. destruct (Hnot Hin).
Qed.

Lemma load_default_content (file : option string) :
  load_words_from_file (file_lines <$> file)
  = load_words_from_file (Some (file_lines (default "" file))).
Proof. destruct file; done. Qed.

(** X14. On a banned-words file that is missing, empty or ends with a
    line feed, adding a word without line feed adds exactly that word,
    stripped and in lower case, to the banned set, unless it is empty, a
    comment or an exception; the words banned before stay banned. *)
Theorem add_banned_word_adds (word : string) (fs : lexicon_files) (old : lexicon) :
  ends_with_newline (default "" (banned_words_txt fs)) →
  "010"%char ∉ chars word →
  (add_banned_word word fs old).2 = Added
  ∧ exceptions (add_banned_word word fs old).1.2 = exceptions (reload fs old)
  ∧ ∀ x, x ∈ banned_words (add_banned_word word fs old).1.2
         ↔ x ∈ banned_words (reload fs old)
           ∨ (x = lower (strip word) ∧ strip word ≠ ""
              ∧ startswith_hash (strip word) = false
              ∧ x ∉ exceptions (reload fs old)).
Proof.
  intros Hend Hword. unfold add_banned_word. cbn [fst snd].
  set (content := default "" (banned_words_txt fs)) in *.
  set (fs' := LexiconFiles (Some (content ++ word ++ str ["010"%char])%string)
                           (exceptions_txt fs)).
  assert (Hb' : banned_words (reload fs' old)
                = load_words_from_file
                    (Some (file_lines (content ++ word ++ str ["010"%char])))
                  ∖ load_words_from_file (file_lines <$> exceptions_txt fs))
    by exact (proj1 (reload_sets fs' old)).
  assert (He' : exceptions (reload fs' old)
                = load_words_from_file (file_lines <$> exceptions_txt fs))
    by exact (proj2 (reload_sets fs' old)).
  destruct (reload_sets fs old) as [Hb He].
  rewrite load_default_content in Hb. fold content in Hb.
  split; [done |]. split; [by rewrite He', He |].
  assert (Hlines : file_lines (content ++ word ++ str ["010"%char])
                   = file_lines content ++ [(word ++ str ["010"%char])%string]).
  { unfold file_lines. rewrite !chars_app.
    change (chars (str ["010"%char])) with ["010"%char].
    destruct Hend as [-> | [body ->]].
    - change (chars "") with (@nil ascii). rewrite app_nil_l.
      rewrite (file_lines_from_line (chars word) [] []) by done.
      cbn [rev app file_lines_from]. by rewrite str_app, str_chars.
    - rewrite chars_app. change (chars (str ["010"%char])) with ["010"%char].
      rewrite <- app_assoc. cbn [app].
      rewrite file_lines_from_app.
      rewrite (file_lines_from_line (chars word) [] []) by done.
      cbn [rev app file_lines_from]. by rewrite str_app, str_chars. }
  intros x. rewrite Hb', Hb, He, !elem_of_difference, Hlines.
  rewrite !elem_of_load_words.
  assert (Hstrip : strip (word ++ str ["010"%char]) = strip word).
  { apply strip_trailing_space. by repeat constructor. }
  split.
  - intros [(line & [Hl | ->%list_elem_of_singleton]%elem_of_app & Hne & Hh & ->) Hexc].
    + left. split; [| done]. eauto 6.
    + right. rewrite Hstrip in *. done.
  - intros [[(line & Hl & Hne & Hh & ->) Hexc] | (-> & Hne & Hh & Hexc)].
    + split; [| done]. exists line. split; [set_solver | done].
    + split; [| done]. exists (word ++ str ["010"%char])%string.
      rewrite Hstrip. split; [set_solver | done].
Qed.

End CommandFacts.

Section CommandSamples.

Local Ltac by_compute :=
  match goal with |- ?P => apply (bool_decide_unpack P); vm_compute; exact I end.

Example sample_files_banned :
  elements (banned_words (reload sample_files no_lexicon)) = ["cats"; "dog"].
Proof. vm_compute. reflexivity. Qed.

(** A file that does not end with a line feed: the added word is glued
    to the last line. *)
Example add_glued_to_last_line :
  elements (banned_words
              (add_banned_word "dog" (LexiconFiles (Some "cat") None) no_lexicon).1.2)
  = ["catdog"].
Proof. vm_compute. reflexivity. Qed.

Lemma remove_banned_word_never_removes_witness :
  banned_words_txt sample_files = Some "cats
# pets
 Dog 
fish
"
  ∧ isascii "cats
# pets
 Dog 
fish
" = true
  ∧ isascii "DOG" = true
  ∧ lower "DOG" ∈ lower <$> listed_words "cats
# pets
 Dog 
fish
"
  ∧ (remove_banned_word "DOG" sample_files no_lexicon).2 = CommandFailed
  ∧ (remove_banned_word "DOG" sample_files no_lexicon).1
    = (sample_files, no_lexicon).
Proof.
  assert (H1 : banned_words_txt sample_files = Some "cats
# pets
 Dog 
fish
") by reflexivity.
  assert (H2 : lower "DOG" ∈ lower <$> listed_words "cats
# pets
 Dog 
fish
") by by_compute.
  assert (Ha : isascii "cats
# pets
 Dog 
fish
" = true) by reflexivity.
  assert (Hw : isascii "DOG" = true) by reflexivity.
  split; [exact H1 |]. split; [exact Ha |]. split; [exact Hw |].
  split; [exact H2 |]. split.
  - exact (proj1 (proj2 (proj2 (proj2
             (remove_banned_word_never_removes "DOG" sample_files no_lexicon)))
             _ H1 Ha Hw) H2).
  - exact (proj1 (remove_banned_word_never_removes "DOG" sample_files no_lexicon)).
Defined.

Lemma add_banned_word_adds_witness :
  ends_with_newline (default "" (banned_words_txt sample_files))
  ∧ ("010"%char ∉ chars " Bird")
  ∧ "bird" ∈ banned_words (add_banned_word " Bird" sample_files no_lexicon).1.2.
Proof.
  assert (H1 : ends_with_newline (default "" (banned_words_txt sample_files))).
  { right. exists "cats
# pets
 Dog 
fish". reflexivity. }
  assert (H2 : "010"%char ∉ chars " Bird").
  { intros H. apply (bool_decide_pack _) in H. vm_compute in H. exact H. }
  split; [exact H1 |]. split; [exact H2 |].
  apply (proj2 (proj2 (add_banned_word_adds " Bird" sample_files no_lexicon H1 H2))).
  right. split; [reflexivity |]. split; [vm_compute; discriminate |].
  split; [reflexivity |].
  intros H. apply (bool_decide_pack _) in H. vm_compute in H. exact H.
Defined.

End CommandSamples.

(** ** Order of binary64 numbers *)

Module Binary64Order.

Lemma compare_lt_gt x y :
  SFcompare x y = Some Lt → SFcompare y x = Some Gt.
Proof.
  destruct x as [sx | sx | | sx mx ex], y as [sy | sy | | sy my ey]; simpl;
    try destruct sx; try destruct sy; try done.
  - rewrite (Z.compare_antisym ex ey).
    destruct (ex ?= ey)%Z; simpl; try done.
    change (Pos.compare_cont Eq my mx) with (my ?= mx)%positive.
    change (Pos.compare_cont Eq mx my) with (mx ?= my)%positive.
    rewrite (Pos.compare_antisym my mx).
    by destruct (my ?= mx)%positive.
  - rewrite (Z.compare_antisym ex ey).
    destruct (ex ?= ey)%Z; simpl; try done.
    change (Pos.compare_cont Eq my mx) with (my ?= mx)%positive.
    change (Pos.compare_cont Eq mx my) with (mx ?= my)%positive.
    rewrite (Pos.compare_antisym my mx).
    by destruct (my ?= mx)%positive.
Qed.

Lemma ltb_asym (x y : float) : (x <? y)%float = true → (y <? x)%float = false.
Proof.
  rewrite !FloatAxioms.ltb_spec. unfold SFltb.
  destruct (SFcompare (Prim2SF x) (Prim2SF y)) as [[] |] eqn:E; try done.
  intros _. by rewrite (compare_lt_gt _ _ E).
Qed.

Lemma ltb_leb (x y : float) : (x <? y)%float = true → (x <=? y)%float = true.
Proof.
  rewrite FloatAxioms.ltb_spec, FloatAxioms.leb_spec. unfold SFltb, SFleb.
  by destruct (SFcompare (Prim2SF x) (Prim2SF y)) as [[] |].
Qed.

End Binary64Order.

(** ** Rate limiter *)

Section RateLimiterFacts.

Lemma drop_stale_suffix now frame h : drop_stale now frame h `suffix_of` h.
Proof.
  induction h as [| t h IH]; simpl; [done |].
  destruct (frame <? now - t)%float; [by apply suffix_cons_r | done].
Qed.

Lemma drop_stale_length now frame h :
  (length (drop_stale now frame h) ≤ length h)%nat.
Proof. apply suffix_length, drop_stale_suffix. Qed.

Lemma history_of_check now key key' rl :
  history_of key' (check_rate_limit now key rl).1
  = if decide (key = key')
    then (let h := drop_stale now (time_frame rl) (history_of key rl) in
          if (max_calls rl <=? Z.of_nat (length h))%Z then h else h ++ [now])
    else history_of key' rl.
Proof.
  unfold check_rate_limit, history_of.
  destruct (max_calls rl <=? _)%Z; simpl;
    destruct (decide (key = key')) as [-> | Hne];
    by rewrite ?lookup_insert_eq, ?lookup_insert_ne.
Qed.

Lemma history_of_remaining now key key' rl :
  history_of key' (get_remaining_calls now key rl).1
  = if decide (key = key')
    then filter (fun t => (now - t <? time_frame rl)%float = true) (history_of key rl)
    else history_of key' rl.
Proof.
  unfold get_remaining_calls, history_of. simpl.
  destruct (decide (key = key')) as [-> | Hne];
    by rewrite ?lookup_insert_eq, ?lookup_insert_ne.
Qed.

Lemma limiter_step_params rl op :
  max_calls (limiter_step rl op) = max_calls rl
  ∧ time_frame (limiter_step rl op) = time_frame rl.
Proof.
  destruct op; cbn [limiter_step]; [| done].
  unfold check_rate_limit. by destruct (max_calls rl <=? _)%Z.
Qed.

(** X15. However the limiter is used, no key ever has more than
    [max_calls] recorded calls (none when [max_calls] is negative), and
    the limit and the time frame stay as they were set. *)
Theorem limiter_never_exceeds (rl : rate_limiter) (ops : list limiter_op) :
  (∀ key, (Z.of_nat (length (history_of key rl)) ≤ Z.max 0 (max_calls rl))%Z) →
  (∀ key, (Z.of_nat (length (history_of key (foldl limiter_step rl ops)))
           ≤ Z.max 0 (max_calls rl))%Z)
  ∧ max_calls (foldl limiter_step rl ops) = max_calls rl
  ∧ time_frame (foldl limiter_step rl ops) = time_frame rl.
Proof.
  revert rl. induction ops as [| op ops IH]; intros rl Hrl; simpl; [done |].
  destruct (limiter_step_params rl op) as [Hm Hf].
  destruct (IH (limiter_step rl op)) as (H1 & H2 & H3).
  - intros key'. rewrite Hm. specialize (Hrl key').
    destruct op as [now key | now key]; cbn [limiter_step].
    + rewrite history_of_check. destruct (decide (key = key')) as [-> | _]; [| done].
      pose proof (drop_stale_length now (time_frame rl) (history_of key' rl)).
      simpl. destruct (Z.leb_spec (max_calls rl)
                         (Z.of_nat (length (drop_stale now (time_frame rl)
                                              (history_of key' rl))))).
      * lia.
      * rewrite length_app. simpl. lia.
    + rewrite history_of_remaining. destruct (decide (key = key')) as [-> | _]; [| done].
      pose proof (length_filter (fun t => (now - t <? time_frame rl)%float = true)
                                (history_of key' rl)). lia.
  - rewrite Hm in H1. rewrite H2, H3. done.
Qed.

Lemma limiter_never_exceeds_witness :
  (∀ key, (Z.of_nat (length (history_of key (RateLimiter 2 60 ∅))) ≤ Z.max 0 2)%Z)
  ∧ (Z.of_nat (length (history_of "ping:7"
        (foldl limiter_step (RateLimiter 2 60 ∅)
           [Check 100 "ping:7"; Check 101 "ping:7"; Check 102 "ping:7";
            Remaining 103 "ping:7"; Check 170 "ping:7"])))
     ≤ Z.max 0 2)%Z.
Proof.
  assert (H : ∀ key, (Z.of_nat (length (history_of key (RateLimiter 2 60 ∅)))
                      ≤ Z.max 0 2)%Z).
  { intros key. unfold history_of. simpl. rewrite lookup_empty. simpl. lia. }
  split; [exact H |].
  exact (proj1 (limiter_never_exceeds (RateLimiter 2 60 ∅)
                  [Check 100 "ping:7"; Check 101 "ping:7"; Check 102 "ping:7";
                   Remaining 103 "ping:7"; Check 170 "ping:7"] H) "ping:7").
Defined.

(** X16. A check touches the history of its own key only. A refused call
    is not recorded: the history of the key is what is left of it after
    the stale entries at its front are dropped. An admitted call is
    recorded at the end of that. *)
Theorem check_records_admitted_only (now : float) (key key' : string)
    (rl : rate_limiter) :
  (key ≠ key' →
     history_of key' (check_rate_limit now key rl).1 = history_of key' rl)
  ∧ ((check_rate_limit now key rl).2 = false →
     history_of key (check_rate_limit now key rl).1
     = drop_stale now (time_frame rl) (history_of key rl)
     ∧ history_of key (check_rate_limit now key rl).1 `suffix_of` history_of key rl)
  ∧ ((check_rate_limit now key rl).2 = true →
     history_of key (check_rate_limit now key rl).1
     = drop_stale now (time_frame rl) (history_of key rl) ++ [now]).
Proof.
  split; [| split].
  - intros Hne. rewrite history_of_check. by rewrite decide_False.
  - rewrite history_of_check, decide_True by done. simpl.
    unfold check_rate_limit. fold (history_of key rl).
    destruct (max_calls rl <=? _)%Z; simpl; [| done].
    intros _. split; [done | apply drop_stale_suffix].
  - rewrite history_of_check, decide_True by done. simpl.
    unfold check_rate_limit. fold (history_of key rl).
    by destruct (max_calls rl <=? _)%Z.
Qed.

Lemma check_records_admitted_only_witness :
  (check_rate_limit 102 "ping:7"
     (RateLimiter 2 60 {[ "ping:7" := [100%float; 101%float] ]})).2 = false
  ∧ history_of "ping:7"
      (check_rate_limit 102 "ping:7"
         (RateLimiter 2 60 {[ "ping:7" := [100%float; 101%float] ]})).1
    = [100%float; 101%float].
Proof.
  assert (H : (check_rate_limit 102 "ping:7"
                 (RateLimiter 2 60 {[ "ping:7" := [100%float; 101%float] ]})).2
              = false) by (vm_compute; reflexivity).
  split; [exact H |].
  rewrite (proj1 (proj1 (proj2 (check_records_admitted_only 102 "ping:7" "ping:7"
             (RateLimiter 2 60 {[ "ping:7" := [100%float; 101%float] ]}))) H)).
  vm_compute. reflexivity.
Defined.

(** X17. [get_remaining_calls] and [check_rate_limit] agree: right after
    the remaining calls of a key were queried, a check of that key at the
    same clock reading is admitted exactly when the answer was positive. *)
Theorem remaining_calls_allowed (now : float) (key : string) (rl : rate_limiter) :
  (check_rate_limit now key (get_remaining_calls now key rl).1).2 = true
  ↔ (0 < (get_remaining_calls now key rl).2)%Z.
Proof.
  set (h := filter (fun t => (now - t <? time_frame rl)%float = true)
                   (history_of key rl)).
  assert (Hfresh : drop_stale now (time_frame rl) h = h).
  { assert (Hall : Forall (fun t => (now - t <? time_frame rl)%float = true) h).
    { apply Forall_forall. intros t Ht. by apply list_elem_of_filter in Ht as [? _]. }
    destruct Hall as [| t h' Ht _]; [done |]. simpl.
    by rewrite (Binary64Order.ltb_asym _ _ Ht). }
  unfold check_rate_limit, get_remaining_calls. cbn [fst snd max_calls time_frame call_history].
  rewrite lookup_insert_eq. cbn [default]. fold (history_of key rl). fold h.
  change (id h) with h. rewrite Hfresh.
  destruct (Z.leb_spec (max_calls rl) (Z.of_nat (length h))); simpl; split; try done; lia.
Qed.

(** The two functions disagree without the query in between: an entry
    exactly one time frame old is kept by the check and not counted by
    the query. *)
Example remaining_boundary :
  (get_remaining_calls 160 "k" (RateLimiter 1 60 {[ "k" := [100%float] ]})).2 = 1%Z
  ∧ (check_rate_limit 160 "k" (RateLimiter 1 60 {[ "k" := [100%float] ]})).2 = false.
Proof. vm_compute. split; reflexivity. Qed.

(** X18. The waiting time that [get_reset_time] reports is a number that
    is never negative, and it is zero for a key without recorded calls. *)
Theorem reset_time_not_negative (now : float) (key : string) (rl : rate_limiter) :
  (0 <=? get_reset_time now key rl)%float = true
  ∧ (history_of key rl = [] → get_reset_time now key rl = 0%float).
Proof.
  unfold get_reset_time, history_of.
  destruct (default [] (call_history rl !! key)) as [| t h]; [done |].
  split; [| done]. unfold max_zero.
  destruct (0 <? time_frame rl - (now - t))%float eqn:E; [| done].
  by apply Binary64Order.ltb_leb.
Qed.

Lemma reset_time_not_negative_witness :
  history_of "k" (RateLimiter 1 60 ∅) = []
  ∧ get_reset_time 5 "k" (RateLimiter 1 60 ∅) = 0%float.
Proof.
  assert (H : history_of "k" (RateLimiter 1 60 ∅) = []) by reflexivity.
  split; [exact H |].
  exact (proj2 (reset_time_not_negative 5 "k" (RateLimiter 1 60 ∅)) H).
Defined.

(** A refused command is told to wait until the oldest call is one time
    frame old; a call at that very time is still refused, because the
    check drops only entries that are older than the time frame. *)
Example refused_at_reset_time :
  command_rate_limit 130 130 "ping:7" (RateLimiter 1 60 {[ "ping:7" := [100%float] ]})
  = (RateLimiter 1 60 {[ "ping:7" := [100%float] ]}, false, Some 30%float)
  ∧ (check_rate_limit 160 "ping:7"
       (RateLimiter 1 60 {[ "ping:7" := [100%float] ]})).2 = false.
Proof. vm_compute. split; reflexivity. Qed.

End RateLimiterFacts.

(** ** Circuit breaker *)

Section CircuitBreakerFacts.

Lemma call_threshold now ok t_fail cb :
  failure_threshold (call now ok t_fail cb).1 = failure_threshold cb.
Proof.
  unfold call, before_call, reset_failure_count_if_needed.
  destruct (cb_state cb) eqn:Es; [| destruct (last_failure_time cb) as [t |] |].
  - destruct (last_failure_time cb) as [t |];
      [destruct (truthy (Some t) && _) |]; destruct ok; simpl; rewrite ?Es; done.
  - destruct (recovery_time cb <=? now - t)%float; destruct ok; done.
  - done.
  - destruct ok; simpl; rewrite ?Es; done.
Qed.

Lemma call_inv now ok t_fail cb :
  (0 < failure_threshold cb)%Z →
  breaker_inv cb →
  breaker_inv (call now ok t_fail cb).1 ∧ (call now ok t_fail cb).2 ≠ TypeError.
Proof.
  destruct cb as [th rec res st f lft].
  unfold breaker_inv, call, before_call, reset_failure_count_if_needed, record_failure,
    reset_breaker.
  cbn [cb_state failures failure_threshold last_failure_time recovery_time reset_timeout].
  intros Hth Hinv. destruct st; [| destruct Hinv as [Hf Hl] |]; [| | done].
  - destruct lft as [t |]; [destruct (truthy (Some t) && _) |]; destruct ok;
      cbn [fst snd cb_state failures failure_threshold last_failure_time];
      (split; [| done]); try done;
      match goal with
      | |- context [(?a <=? ?b)%Z] => destruct (Z.leb_spec a b)
      end; try done; lia.
  - destruct lft as [t |]; [| done].
    destruct (rec <=? now - t)%float; [destruct ok |];
      cbn [fst snd cb_state failures failure_threshold last_failure_time];
      (split; [| done]); try done.
    destruct (Z.leb_spec th (f + 1)); [| lia].
    split; [lia | done].
Qed.

(** X19. A breaker made with a positive threshold, after any sequence of
    protected calls: it is never left half open, it is open exactly when
    the failure count has reached the threshold, no call ends in the
    [TypeError] of a missing failure time, and the threshold is the one
    it was made with. *)
Theorem breaker_open_iff_threshold (threshold : Z) (recovery reset : float)
    (cs : list (float * bool * float)) :
  (0 < threshold)%Z →
  let res := calls (new_breaker threshold recovery reset) cs in
  cb_state res.1 ≠ HALF_OPEN
  ∧ (cb_state res.1 = OPEN ↔ (threshold ≤ failures res.1)%Z)
  ∧ (TypeError ∉ res.2)
  ∧ failure_threshold res.1 = threshold.
Proof.
  intros Hth.
  assert (Hgen : ∀ cs cb,
             (0 < failure_threshold cb)%Z → breaker_inv cb →
             breaker_inv (calls cb cs).1 ∧ (TypeError ∉ (calls cb cs).2)
             ∧ failure_threshold (calls cb cs).1 = failure_threshold cb).
  { clear. induction cs as [| [[now ok] t_fail] cs IH]; intros cb Hth Hinv.
    - simpl. split; [done |]. split; [apply not_elem_of_nil | done].
    - simpl. pose proof (call_inv now ok t_fail cb Hth Hinv) as [Hinv' Hr].
      pose proof (call_threshold now ok t_fail cb) as Ht.
      destruct (call now ok t_fail cb) as [cb1 r]. simpl in Hinv', Hr, Ht.
      assert (Hth' : (0 < failure_threshold cb1)%Z) by (by rewrite Ht).
      specialize (IH cb1 Hth' Hinv'). destruct (calls cb1 cs) as [cb2 rs].
      simpl in *. destruct IH as (? & ? & ?). split; [done |].
      split; [| congruence].
      rewrite not_elem_of_cons. done. }
  destruct (Hgen cs (new_breaker threshold recovery reset)) as (Hinv & Hr & Ht);
    [done | done |].
  simpl. simpl in Ht. unfold breaker_inv in Hinv.
  destruct (cb_state (calls _ cs).1); rewrite Ht in *.
  - repeat split; try done. lia.
  - repeat split; try done. tauto.
  - done.
Qed.

Lemma breaker_open_iff_threshold_witness :
  (0 < 2)%Z
  ∧ cb_state (calls (new_breaker 2 30 60)
                [(100, false, 101); (102, true, 103); (104, false, 105);
                 (106, true, 107); (140, true, 141)]%float).1 ≠ HALF_OPEN.
Proof.
  assert (H : (0 < 2)%Z) by lia.
  split; [exact H |].
  exact (proj1 (breaker_open_iff_threshold 2 30 60
                  [(100, false, 101); (102, true, 103); (104, false, 105);
                   (106, true, 107); (140, true, 141)]%float H)).
Defined.

(** The failure count is not cleared by a call that succeeds while the
    circuit is closed: two failures with a success in between open a
    breaker of threshold two, the next call is blocked, and the call
    after the recovery time closes it again. *)
Example failures_survive_success :
  calls (new_breaker 2 30 60)
    [(100, false, 101); (102, true, 103); (104, false, 105);
     (106, true, 107); (140, true, 141)]%float
  = (new_breaker 2 30 60, [Failed; Returned; Failed; Blocked; Returned]).
Proof. vm_compute. reflexivity. Qed.

(** With a threshold that is not positive the new breaker is closed
    although its failure count has reached the threshold. *)
Example zero_threshold_starts_closed :
  cb_state (new_breaker 0 30 60) = CLOSED
  ∧ (failure_threshold (new_breaker 0 30 60) ≤ failures (new_breaker 0 30 60))%Z.
Proof. split; [reflexivity | simpl; lia]. Qed.

(** X20. An open breaker whose last failure is at [t]. Before the
    recovery time has passed a call is blocked: the function does not
    run, whatever it would have done, and the breaker is left as it was.
    Once it has passed the function runs as a trial: when it returns the
    breaker is closed with its count and failure time cleared, when it
    raises the breaker is open again with the failure counted and its
    time recorded. *)
Theorem open_breaker_trial (now t t_fail : float) (cb : circuit_breaker) :
  cb_state cb = OPEN →
  last_failure_time cb = Some t →
  (failure_threshold cb ≤ failures cb)%Z →
  ((recovery_time cb <=? now - t)%float = false →
     ∀ ok, call now ok t_fail cb = (cb, Blocked))
  ∧ ((recovery_time cb <=? now - t)%float = true →
     call now true t_fail cb
     = (CircuitBreaker (failure_threshold cb) (recovery_time cb) (reset_timeout cb)
                       CLOSED 0 None, Returned)
     ∧ call now false t_fail cb
       = (CircuitBreaker (failure_threshold cb) (recovery_time cb) (reset_timeout cb)
                         OPEN (failures cb + 1) (Some t_fail), Failed)).
Proof.
  intros Es Hl Hf. unfold call, before_call. rewrite Es, Hl.
  split; intros ->; [done |].
  split; [done |]. unfold record_failure. simpl.
  destruct (Z.leb_spec (failure_threshold cb) (failures cb + 1)); [done | lia].
Qed.

Lemma open_breaker_trial_witness :
  cb_state (CircuitBreaker 2 30 60 OPEN 2 (Some 105%float)) = OPEN
  ∧ last_failure_time (CircuitBreaker 2 30 60 OPEN 2 (Some 105%float)) = Some 105%float
  ∧ (2 ≤ 2)%Z
  ∧ (30 <=? 106 - 105)%float = false
  ∧ call 106 true 107 (CircuitBreaker 2 30 60 OPEN 2 (Some 105%float))
    = (CircuitBreaker 2 30 60 OPEN 2 (Some 105%float), Blocked).
Proof.
  assert (H1 : cb_state (CircuitBreaker 2 30 60 OPEN 2 (Some 105%float)) = OPEN)
    by reflexivity.
  assert (H2 : last_failure_time (CircuitBreaker 2 30 60 OPEN 2 (Some 105%float))
               = Some 105%float) by reflexivity.
  assert (H3 : (2 ≤ 2)%Z) by lia.
  assert (H4 : (30 <=? 106 - 105)%float = false) by (vm_compute; reflexivity).
  split; [exact H1 |]. split; [exact H2 |]. split; [exact H3 |]. split; [exact H4 |].
  exact (proj1 (open_breaker_trial 106 105 107
                  (CircuitBreaker 2 30 60 OPEN 2 (Some 105%float)) H1 H2 H3) H4 true).
Defined.

End CircuitBreakerFacts.
